(** * A Bloom filter over a packed bit array: [bloom.c]

    Shallow embedding of [bloom_new], [bloom_add] and [bloom_check]
    together with the bit macros [SETBIT], [GETBIT] and [ROUND], and the
    properties of the filter that follow from the code.

    Integers are modelled as [Z] with the conversions of the C types
    written out (LP64: 8-bit [char], 32-bit [int] and [unsigned int],
    64-bit [size_t]).  Behaviour the C standard leaves undefined (a
    division by zero, an access outside an allocated object, an overflow
    of the signed loop counter) is the outcome [Undefined]. *)

From Stdlib Require Import ZArith Lia Bool.
From stdpp Require Import base numbers list strings gmap.

Local Open Scope Z_scope.

(** ** C integer types *)

Definition CHAR_BIT : Z := 8.
Definition INT_MAX : Z := 2 ^ 31 - 1.
Definition UINT_MAX : Z := 2 ^ 32 - 1.
Definition SIZE_MAX : Z := 2 ^ 64 - 1.

(** Conversion to [unsigned int], to [size_t] and to [unsigned char]. *)
Definition to_uint (x : Z) : Z := x mod (UINT_MAX + 1).
Definition to_size_t (x : Z) : Z := x mod (SIZE_MAX + 1).
Definition to_uchar (x : Z) : Z := x mod 2 ^ CHAR_BIT.

(** ** Outcomes *)

Inductive result (A : Type) : Type :=
| Ok (x : A)
| Undefined.
Arguments Ok {A} x.
Arguments Undefined {A}.

Definition bind {A B : Type} (c : result A) (f : A -> result B) : result B :=
  match c with
  | Ok x => f x
  | Undefined => Undefined
  end.

Notation "'let*' x ':=' c 'in' f" := (bind c (fun x => f))
  (at level 10, x name, c at level 100, f at level 200).

(** [n++] on an [int]. *)
Definition int_incr (n : Z) : result Z :=
  if n <? INT_MAX then Ok (n + 1) else Undefined.

(** [x % y] on unsigned operands. *)
Definition umod (x y : Z) : result Z :=
  if y =? 0 then Undefined else Ok (x mod y).

(** [arr[i]] as an rvalue and [arr[i] = x], inside the allocated object. *)
Definition load {A : Type} (arr : list A) (i : Z) : result A :=
  if i <? 0 then Undefined
  else match arr !! Z.to_nat i with
       | Some x => Ok x
       | None => Undefined
       end.

Definition store {A : Type} (arr : list A) (i : Z) (x : A) : result (list A) :=
  if (0 <=? i) && (i <? Z.of_nat (length arr))
  then Ok (<[Z.to_nat i := x]> arr)
  else Undefined.

(** ** The filter *)

(** Modelled from the spec: the header [bloom.h], which declares
    [hashfp_t], is not among the sources.  A hash function is a pure
    function from a key (a C string) to an unsigned integer of an
    implementation-defined width; its value is kept as an integer here,
    and the cast [(unsigned int)] that [bloom_add] and [bloom_check]
    apply to it is written out in their loops. *)
Definition hashfp_t : Type := string -> Z.

(** Modelled from the spec: [struct bloom_t] is declared in [bloom.h],
    which is not among the sources.  Its fields are the four the code
    uses: [m] and [k] receive the [size_t] arguments of [bloom_new] and
    never change; [a] is the packed bit array, a sequence of bytes (each
    element is the bit pattern of a byte, a value below [2 ^ CHAR_BIT]);
    [hash] is the ordered table of function pointers. *)
Record bloom_t : Type := mk_bloom {
  m : Z;
  k : Z;
  a : list Z;
  hash : list hashfp_t
}.

Definition with_a (bloom : bloom_t) (arr : list Z) : bloom_t :=
  {| m := m bloom; k := k bloom; a := arr; hash := hash bloom |}.

(** ** The bit macros *)

(** [#define SETBIT(a,n) (a[n/CHAR_BIT] |= (1<<(n%CHAR_BIT)))] *)
Definition SETBIT (arr : list Z) (n : Z) : result (list Z) :=
  let* byte := load arr (n / CHAR_BIT) in
  store arr (n / CHAR_BIT) (to_uchar (Z.lor byte (Z.shiftl 1 (n mod CHAR_BIT)))).

(** [#define GETBIT(a,n) (a[n/CHAR_BIT] &  (1<<(n%CHAR_BIT)))] *)
Definition GETBIT (arr : list Z) (n : Z) : result Z :=
  let* byte := load arr (n / CHAR_BIT) in
  Ok (Z.land byte (Z.shiftl 1 (n mod CHAR_BIT))).

(** [#define ROUND(size) ((size + CHAR_BIT - 1) / CHAR_BIT)], computed
    in [size_t]. *)
Definition ROUND (size : Z) : Z :=
  to_size_t (to_size_t (size + CHAR_BIT) - 1) / CHAR_BIT.

(** ** [bloom_new] *)

(** Whether each of the three allocations of one call succeeds. *)
Record allocator : Type := mk_allocator {
  malloc_bloom : bool;
  calloc_a : bool;
  malloc_hash : bool
}.

Definition sizeof_hashfp_t : Z := 8.

(** The number of table slots that [malloc(num_hashes*sizeof(hashfp_t))]
    provides. *)
Definition hash_slots (num_hashes : Z) : Z :=
  to_size_t (num_hashes * sizeof_hashfp_t) / sizeof_hashfp_t.

(** [for (n=0; n<num_hashes; n++) bloom->hash[n] = va_arg(hashes, hashfp_t);]
    [iters] is the number of iterations left, [ap] the variadic
    arguments not yet consumed, [tbl] the slots written so far. *)
Fixpoint bloom_new_loop (iters : nat) (n slots : Z) (ap tbl : list hashfp_t)
  : result (list hashfp_t) :=
  match iters with
  | O => Ok tbl
  | S iters' =>
      match ap with
      | [] => Undefined
      | fp :: ap' =>
          if n <? slots then
            let* n' := int_incr n in
            bloom_new_loop iters' n' slots ap' (tbl ++ [fp])
          else Undefined
      end
  end.

(** [None] is the [NULL] the function returns when an allocation fails. *)
Definition bloom_new (heap : allocator) (size num_hashes : Z)
    (hashes : list hashfp_t) : result (option bloom_t) :=
  if negb (malloc_bloom heap) then Ok None
  else if negb (calloc_a heap) then Ok None
  else
    let arr := replicate (Z.to_nat (ROUND size)) 0 in
    if negb (malloc_hash heap) then Ok None
    else
      let* tbl := bloom_new_loop (Z.to_nat num_hashes) 0
                    (hash_slots num_hashes) hashes [] in
      Ok (Some {| m := size; k := num_hashes; a := arr; hash := tbl |}).

(** ** [bloom_add] *)

(** The body of the loop runs for [n = 0, 1, ..., k - 1]; [iters] counts
    the iterations left. *)
Fixpoint bloom_add_loop (iters : nat) (n : Z) (bloom : bloom_t) (s : string)
  : result bloom_t :=
  match iters with
  | O => Ok bloom
  | S iters' =>
      let* fp := load (hash bloom) n in
      let hash_v := to_uint (fp s) in
      let* idx := umod hash_v (m bloom) in
      let* arr := SETBIT (a bloom) idx in
      let* n' := int_incr n in
      bloom_add_loop iters' n' (with_a bloom arr) s
  end.

Definition bloom_add (bloom : bloom_t) (s : string) : result bloom_t :=
  bloom_add_loop (Z.to_nat (k bloom)) 0 bloom s.

(** ** [bloom_check] *)

Fixpoint bloom_check_loop (iters : nat) (n : Z) (bloom : bloom_t) (s : string)
  : result bool :=
  match iters with
  | O => Ok true
  | S iters' =>
      let* fp := load (hash bloom) n in
      let hash_v := to_uint (fp s) in
      let* idx := umod hash_v (m bloom) in
      let* bit := GETBIT (a bloom) idx in
      if bit =? 0 then Ok false
      else
        let* n' := int_incr n in
        bloom_check_loop iters' n' bloom s
  end.

Definition bloom_check (bloom : bloom_t) (s : string) : result bool :=
  bloom_check_loop (Z.to_nat (k bloom)) 0 bloom s.

(** The same loop, recording next to its answer the bit indices it has
    read from the array, in the order it read them. *)
Fixpoint bloom_check_probes (iters : nat) (n : Z) (bloom : bloom_t) (s : string)
  : result (bool * list Z) :=
  match iters with
  | O => Ok (true, [])
  | S iters' =>
      let* fp := load (hash bloom) n in
      let hash_v := to_uint (fp s) in
      let* idx := umod hash_v (m bloom) in
      let* bit := GETBIT (a bloom) idx in
      if bit =? 0 then Ok (false, [idx])
      else
        let* n' := int_incr n in
        let* r := bloom_check_probes iters' n' bloom s in
        Ok (fst r, idx :: snd r)
  end.

Definition bloom_check_traced (bloom : bloom_t) (s : string)
  : result (bool * list Z) :=
  bloom_check_probes (Z.to_nat (k bloom)) 0 bloom s.

(** ** Observations *)

(** Bit [i] of the packed array. *)
Definition bit_at (arr : list Z) (i : Z) : bool :=
  match arr !! Z.to_nat (i / CHAR_BIT) with
  | Some byte => Z.testbit byte (i mod CHAR_BIT)
  | None => false
  end.

(** The bit index that [bloom_add] and [bloom_check] derive from one hash
    function, and the indices of a key in the order of the table. *)
Definition bit_index (bloom : bloom_t) (s : string) (fp : hashfp_t) : Z :=
  to_uint (fp s) mod m bloom.

Definition bloom_indices (bloom : bloom_t) (s : string) : list Z :=
  map (bit_index bloom s) (hash bloom).

Definition is_uchar (b : Z) : bool := (0 <=? b) && (b <? 2 ^ CHAR_BIT).

(** A well-formed filter: the array has a bit for every index below [m],
    its elements are bytes, the table has [k] entries and the [int]
    counter of the loops can reach [k]. *)
Definition bloom_wf (bloom : bloom_t) : bool :=
  (m bloom <=? CHAR_BIT * Z.of_nat (length (a bloom)))
  && forallb is_uchar (a bloom)
  && (k bloom =? Z.of_nat (length (hash bloom)))
  && (k bloom <=? INT_MAX).

(** ** Sequences of calls *)

Fixpoint bloom_add_all (bloom : bloom_t) (keys : list string) : result bloom_t :=
  match keys with
  | [] => Ok bloom
  | s :: keys' =>
      let* bloom' := bloom_add bloom s in
      bloom_add_all bloom' keys'
  end.

Fixpoint bloom_add_times (count : nat) (bloom : bloom_t) (s : string)
  : result bloom_t :=
  match count with
  | O => Ok bloom
  | S count' =>
      let* bloom' := bloom_add bloom s in
      bloom_add_times count' bloom' s
  end.

Inductive call : Type :=
| Add (s : string)
| Check (s : string).

(** Runs the calls in order; the answers of the [Check] calls are
    collected, and a [Check] hands the filter on as it found it. *)
Fixpoint run (bloom : bloom_t) (calls : list call)
  : result (bloom_t * list bool) :=
  match calls with
  | [] => Ok (bloom, [])
  | Add s :: calls' =>
      let* bloom' := bloom_add bloom s in
      run bloom' calls'
  | Check s :: calls' =>
      let* answer := bloom_check bloom s in
      let* r := run bloom calls' in
      Ok (fst r, answer :: snd r)
  end.

(** An allocator under which every allocation succeeds. *)
Definition heap_ok : allocator :=
  {| malloc_bloom := true; calloc_a := true; malloc_hash := true |}.

(** The bit indices [bloom_check] reads for the indices [idxs] of a key:
    those up to and including the first one whose bit is clear. *)
Fixpoint examined (arr : list Z) (idxs : list Z) : list Z :=
  match idxs with
  | [] => []
  | i :: idxs' => if bit_at arr i then i :: examined arr idxs' else [i]
  end.

(** A filter [later] extends [bloom]: same geometry, same table, and
    every bit set in [bloom] is set in [later]. *)
Definition extends (later bloom : bloom_t) : Prop :=
  m later = m bloom /\ k later = k bloom /\ hash later = hash bloom
  /\ bloom_wf later = true
  /\ forall i, 0 <= i -> bit_at (a bloom) i = true -> bit_at (a later) i = true.

(** ** Sample hash functions and filters *)

(** Two string hashes of the kind a caller passes to [bloom_new]; they
    return the hash as an unbounded integer. *)
Fixpoint djb2_from (h : Z) (s : string) : Z :=
  match s with
  | EmptyString => h
  | String c s' => djb2_from (h * 33 + Z.of_nat (Ascii.nat_of_ascii c)) s'
  end.

Definition djb2 : hashfp_t := djb2_from 5381.

Fixpoint sdbm_from (h : Z) (s : string) : Z :=
  match s with
  | EmptyString => h
  | String c s' => sdbm_from (h * 65599 + Z.of_nat (Ascii.nat_of_ascii c)) s'
  end.

Definition sdbm : hashfp_t := sdbm_from 0.

(** A filter of sixteen bits with these two hash functions. *)
Definition sample_bloom : bloom_t :=
  {| m := 16; k := 2; a := [0; 0]; hash := [djb2; sdbm] |}.

(** ** Allocation and [bloom_del] *)

(** The allocator seen from the program: the set of blocks that are
    live.  [malloc] and [calloc] return a block that is not live, or
    [NULL] ([None]); [free] of a block that is not live is undefined. *)
Definition malloc (ok : bool) (live : gset nat) : option nat * gset nat :=
  if ok then (Some (fresh live), {[fresh live]} ∪ live) else (None, live).

Definition free (blk : nat) (live : gset nat) : result (gset nat) :=
  if decide (blk ∈ live) then Ok (live ∖ {[blk]}) else Undefined.

(** The three pointers of a filter: the container [bloom], [bloom->a] and
    [bloom->hash]. *)
Record bloom_ptrs : Type := mk_ptrs {
  p_bloom : nat;
  p_a : nat;
  p_hash : nat
}.

(** [bloom_new] with its calls to [malloc], [calloc] and [free]: the
    result is the filter with its pointers, or [NULL], and the blocks
    live on return. *)
Definition bloom_new_alloc (heap : allocator) (size num_hashes : Z)
    (hashes : list hashfp_t) (live : gset nat)
  : result (option (bloom_ptrs * bloom_t) * gset nat) :=
  match malloc (malloc_bloom heap) live with
  | (None, live1) => Ok (None, live1)
  | (Some pb, live1) =>
      match malloc (calloc_a heap) live1 with
      | (None, live2) =>
          let* live3 := free pb live2 in
          Ok (None, live3)
      | (Some pa, live2) =>
          let arr := replicate (Z.to_nat (ROUND size)) 0 in
          match malloc (malloc_hash heap) live2 with
          | (None, live3) =>
              let* live4 := free pa live3 in
              let* live5 := free pb live4 in
              Ok (None, live5)
          | (Some ph, live3) =>
              let* tbl := bloom_new_loop (Z.to_nat num_hashes) 0
                            (hash_slots num_hashes) hashes [] in
              Ok (Some ({| p_bloom := pb; p_a := pa; p_hash := ph |},
                        {| m := size; k := num_hashes; a := arr; hash := tbl |}),
                  live3)
          end
      end
  end.

(** [bloom_del]: [free(bloom->a); free(bloom->hash); free(bloom);] *)
Definition bloom_del (ptrs : bloom_ptrs) (live : gset nat) : result (gset nat) :=
  let* live1 := free (p_a ptrs) live in
  let* live2 := free (p_hash ptrs) live1 in
  free (p_bloom ptrs) live2.

(** The number of [Check] calls in a sequence of calls. *)
Fixpoint checks (calls : list call) : nat :=
  match calls with
  | [] => O
  | Add _ :: calls' => checks calls'
  | Check _ :: calls' => S (checks calls')
  end.

(** Whether every bit below [m] is set. *)
Definition saturated (bloom : bloom_t) : bool :=
  forallb (bit_at (a bloom)) (map Z.of_nat (seq 0 (Z.to_nat (m bloom)))).

(** * Properties *)

(** ** Bits of a byte *)

Section Bits.

Lemma CHAR_BIT_eq : CHAR_BIT = 8.
Proof. reflexivity. Qed.

Lemma getbit_zero (byte p : Z) :
  0 <= p -> (Z.land byte (Z.shiftl 1 p) =? 0) = negb (Z.testbit byte p).
Proof.
  intros Hp. rewrite Z.shiftl_1_l.
  destruct (Z.testbit byte p) eqn:Hb; simpl.
  - apply Z.eqb_neq. intros H0.
    assert (Ht : Z.testbit (Z.land byte (2 ^ p)) p = true).
    { rewrite Z.land_spec, Hb, Z.pow2_bits_true by lia. reflexivity. }
    rewrite H0, Z.bits_0 in Ht. discriminate.
  - apply Z.eqb_eq. apply Z.bits_inj'. intros q Hq.
    rewrite Z.land_spec, Z.bits_0, Z.pow2_bits_eqb by lia.
    destruct (Z.eqb_spec p q) as [->|]; [rewrite Hb|]; auto using andb_false_r.
Qed.

Lemma setbit_testbit (byte p q : Z) :
  0 <= p -> 0 <= q < CHAR_BIT ->
  Z.testbit (to_uchar (Z.lor byte (Z.shiftl 1 p))) q
  = Z.testbit byte q || (q =? p).
Proof.
  intros Hp Hq. unfold to_uchar.
  rewrite Z.mod_pow2_bits_low by lia.
  rewrite Z.lor_spec, Z.shiftl_1_l, Z.pow2_bits_eqb by lia.
  rewrite (Z.eqb_sym p q). reflexivity.
Qed.

Lemma to_uchar_is_uchar (x : Z) : is_uchar (to_uchar x) = true.
Proof.
  unfold is_uchar, to_uchar.
  pose proof (Z.mod_pos_bound x (2 ^ CHAR_BIT) eq_refl). lia.
Qed.

Lemma uchar_ext (x y : Z) :
  is_uchar x = true -> is_uchar y = true ->
  (forall p, 0 <= p < CHAR_BIT -> Z.testbit x p = Z.testbit y p) -> x = y.
Proof.
  unfold is_uchar. intros Hx Hy Hbits.
  apply Z.bits_inj'. intros p Hp.
  destruct (Z_lt_ge_dec p CHAR_BIT) as [Hlt|Hge]; [apply Hbits; lia|].
  rewrite <- (Z.mod_small x (2 ^ CHAR_BIT)), <- (Z.mod_small y (2 ^ CHAR_BIT)) by lia.
  rewrite !Z.mod_pow2_bits_high; auto; rewrite CHAR_BIT_eq in *; lia.
Qed.

Lemma index_split (i n : Z) :
  (i =? n) = (i / CHAR_BIT =? n / CHAR_BIT) && (i mod CHAR_BIT =? n mod CHAR_BIT).
Proof.
  rewrite CHAR_BIT_eq.
  destruct (Z.eqb_spec i n) as [->|Hne].
  - rewrite !Z.eqb_refl. reflexivity.
  - symmetry. apply andb_false_iff.
    destruct (Z.eqb_spec (i / 8) (n / 8)); [right|left; reflexivity].
    apply Z.eqb_neq. intros Hm. apply Hne.
    rewrite (Z.div_mod i 8), (Z.div_mod n 8) by lia. congruence.
Qed.

End Bits.

(** ** The bit macros on an array *)

Section Macros.

Implicit Types (arr : list Z) (n i : Z).

Lemma load_Some {A : Type} (l : list A) i (x : A) :
  0 <= i -> l !! Z.to_nat i = Some x -> load l i = Ok x.
Proof.
  intros Hi Hl. unfold load.
  destruct (Z.ltb_spec i 0); [lia|]. rewrite Hl. reflexivity.
Qed.

Lemma byte_in_range arr n :
  0 <= n < CHAR_BIT * Z.of_nat (length arr) ->
  0 <= n / CHAR_BIT < Z.of_nat (length arr) /\ 0 <= n mod CHAR_BIT < CHAR_BIT.
Proof.
  rewrite CHAR_BIT_eq. intros Hn. split.
  - split; [apply Z.div_pos; lia|apply Z.div_lt_upper_bound; lia].
  - apply Z.mod_pos_bound. lia.
Qed.

Lemma lookup_byte arr n :
  0 <= n < CHAR_BIT * Z.of_nat (length arr) ->
  exists byte, arr !! Z.to_nat (n / CHAR_BIT) = Some byte.
Proof.
  intros Hn. destruct (byte_in_range arr n Hn) as [Hd _].
  apply lookup_lt_is_Some_2. lia.
Qed.

Lemma GETBIT_spec arr n :
  0 <= n < CHAR_BIT * Z.of_nat (length arr) ->
  exists v, GETBIT arr n = Ok v /\ (v =? 0) = negb (bit_at arr n).
Proof.
  intros Hn. destruct (lookup_byte arr n Hn) as [byte Hb].
  destruct (byte_in_range arr n Hn) as [Hd Hm].
  exists (Z.land byte (Z.shiftl 1 (n mod CHAR_BIT))). split.
  - unfold GETBIT. rewrite (load_Some arr _ byte) by (lia || assumption).
    reflexivity.
  - unfold bit_at. rewrite Hb. apply getbit_zero. lia.
Qed.

Lemma SETBIT_spec arr n :
  0 <= n < CHAR_BIT * Z.of_nat (length arr) ->
  exists arr',
    SETBIT arr n = Ok arr'
    /\ length arr' = length arr
    /\ (forallb is_uchar arr = true -> forallb is_uchar arr' = true)
    /\ forall i, 0 <= i -> bit_at arr' i = bit_at arr i || (i =? n).
Proof.
  intros Hn. destruct (lookup_byte arr n Hn) as [byte Hb].
  destruct (byte_in_range arr n Hn) as [Hd Hm].
  set (byte' := to_uchar (Z.lor byte (Z.shiftl 1 (n mod CHAR_BIT)))).
  exists (<[Z.to_nat (n / CHAR_BIT) := byte']> arr). repeat split.
  - unfold SETBIT. rewrite (load_Some arr _ byte) by (lia || assumption).
    simpl. unfold store.
    destruct (Z.leb_spec 0 (n / CHAR_BIT)); [|lia].
    destruct (Z.ltb_spec (n / CHAR_BIT) (Z.of_nat (length arr))); [|lia].
    reflexivity.
  - apply length_insert.
  - rewrite !forallb_forall. intros Hall x Hx.
    apply list_elem_of_In, list_elem_of_lookup in Hx. destruct Hx as [j Hj].
    destruct (decide (Z.to_nat (n / CHAR_BIT) = j)) as [<-|Hne].
    + rewrite list_lookup_insert_eq in Hj by lia.
      injection Hj as <-. apply to_uchar_is_uchar.
    + rewrite list_lookup_insert_ne in Hj by assumption.
      apply Hall, list_elem_of_In, list_elem_of_lookup. eauto.
  - intros i Hi. unfold bit_at. rewrite index_split.
    assert (0 <= i / CHAR_BIT) by (apply Z.div_pos; rewrite ?CHAR_BIT_eq; lia).
    assert (0 <= i mod CHAR_BIT < CHAR_BIT)
      by (apply Z.mod_pos_bound; reflexivity).
    destruct (Z.eqb_spec (i / CHAR_BIT) (n / CHAR_BIT)) as [Heq|Hne].
    + rewrite Heq, list_lookup_insert_eq, Hb by lia.
      unfold byte'. rewrite setbit_testbit by lia. reflexivity.
    + rewrite list_lookup_insert_ne by lia.
      simpl. rewrite orb_false_r. reflexivity.
Qed.

End Macros.

(** ** The loops of [bloom_add] and [bloom_check] *)

Section Loops.

Variable s : string.

Implicit Types (bloom : bloom_t) (n i : Z) (iters : nat).

Lemma umod_pos (x y : Z) : 0 < y -> umod x y = Ok (x mod y).
Proof. intros Hy. unfold umod. destruct (Z.eqb_spec y 0); [lia|reflexivity]. Qed.

Lemma int_incr_lt n : n < INT_MAX -> int_incr n = Ok (n + 1).
Proof. intros Hn. unfold int_incr. destruct (Z.ltb_spec n INT_MAX); [reflexivity|lia]. Qed.

Lemma bit_index_range bloom (fp : hashfp_t) :
  0 < m bloom ->
  0 <= bit_index bloom s fp < m bloom /\ bit_index bloom s fp <= UINT_MAX.
Proof.
  intros Hm. unfold bit_index, to_uint.
  pose proof (Z.mod_pos_bound (fp s) (UINT_MAX + 1) eq_refl) as Hu.
  pose proof (Z.mod_pos_bound (fp s mod (UINT_MAX + 1)) (m bloom) Hm) as Hi.
  split; [exact Hi|].
  pose proof (Z.mod_le (fp s mod (UINT_MAX + 1)) (m bloom)). lia.
Qed.

(** The table entry the iteration with counter [n] calls. *)
Lemma hash_entry bloom n iters :
  0 <= n -> n + Z.of_nat (S iters) = Z.of_nat (length (hash bloom)) ->
  exists fp,
    load (hash bloom) n = Ok fp
    /\ drop (Z.to_nat n) (hash bloom)
       = fp :: drop (Z.to_nat (n + 1)) (hash bloom).
Proof.
  intros Hn Hlen.
  destruct (lookup_lt_is_Some_2 (hash bloom) (Z.to_nat n)) as [fp Hfp]; [lia|].
  exists fp. split; [apply load_Some; assumption|].
  replace (Z.to_nat (n + 1)) with (S (Z.to_nat n)) by lia.
  apply drop_S. assumption.
Qed.

Lemma bloom_add_loop_spec iters : forall n bloom,
  0 < m bloom ->
  m bloom <= CHAR_BIT * Z.of_nat (length (a bloom)) ->
  0 <= n ->
  n + Z.of_nat iters = Z.of_nat (length (hash bloom)) ->
  n + Z.of_nat iters <= INT_MAX ->
  exists arr,
    bloom_add_loop iters n bloom s = Ok (with_a bloom arr)
    /\ length arr = length (a bloom)
    /\ (forallb is_uchar (a bloom) = true -> forallb is_uchar arr = true)
    /\ forall i, 0 <= i ->
         bit_at arr i
         = bit_at (a bloom) i
           || existsb (Z.eqb i)
                (map (bit_index bloom s) (drop (Z.to_nat n) (hash bloom))).
Proof.
  induction iters as [|iters IH]; intros n bloom Hm Hcov Hn Hlen Hmax.
  - exists (a bloom). repeat split; auto.
    + destruct bloom; reflexivity.
    + intros i _. rewrite drop_ge by lia. simpl. rewrite orb_false_r. reflexivity.
  - destruct (hash_entry bloom n iters Hn Hlen) as (fp & Hload & Hdrop).
    destruct (bit_index_range bloom fp Hm) as [Hidx _].
    destruct (SETBIT_spec (a bloom) (bit_index bloom s fp))
      as (arr1 & Hset & Hlen1 & Huc1 & Hbits1); [lia|].
    destruct (IH (n + 1) (with_a bloom arr1))
      as (arr2 & Hrun & Hlen2 & Huc2 & Hbits2); simpl; try lia.
    exists arr2. repeat split.
    + cbn [bloom_add_loop]. rewrite Hload. cbn [bind].
      rewrite umod_pos by assumption. cbn [bind].
      fold (bit_index bloom s fp). rewrite Hset. cbn [bind].
      rewrite int_incr_lt by lia. cbn [bind]. exact Hrun.
    + simpl in Hlen2. congruence.
    + auto.
    + intros i Hi. rewrite Hbits2 by assumption. simpl.
      rewrite Hbits1 by assumption. rewrite Hdrop. simpl.
      rewrite orb_assoc. reflexivity.
Qed.

Lemma bloom_check_probes_spec iters : forall n bloom,
  0 < m bloom ->
  m bloom <= CHAR_BIT * Z.of_nat (length (a bloom)) ->
  0 <= n ->
  n + Z.of_nat iters = Z.of_nat (length (hash bloom)) ->
  n + Z.of_nat iters <= INT_MAX ->
  let idxs := map (bit_index bloom s) (drop (Z.to_nat n) (hash bloom)) in
  bloom_check_probes iters n bloom s
  = Ok (forallb (bit_at (a bloom)) idxs, examined (a bloom) idxs).
Proof.
  induction iters as [|iters IH]; intros n bloom Hm Hcov Hn Hlen Hmax idxs;
    subst idxs.
  - rewrite drop_ge by lia. reflexivity.
  - destruct (hash_entry bloom n iters Hn Hlen) as (fp & Hload & Hdrop).
    destruct (bit_index_range bloom fp Hm) as [Hidx _].
    destruct (GETBIT_spec (a bloom) (bit_index bloom s fp))
      as (v & Hget & Hv); [lia|].
    cbn [bloom_check_probes]. rewrite Hload. cbn [bind].
    rewrite umod_pos by assumption. cbn [bind].
    fold (bit_index bloom s fp). rewrite Hget. cbn [bind].
    rewrite Hdrop. cbn [map forallb examined]. rewrite Hv.
    destruct (bit_at (a bloom) (bit_index bloom s fp)); cbn [negb andb].
    + rewrite int_incr_lt by lia. cbn [bind].
      rewrite IH by lia. reflexivity.
    + reflexivity.
Qed.

(** The traced loop answers as the loop of the source does. *)
Lemma bloom_check_probes_fst iters : forall n bloom,
  bloom_check_loop iters n bloom s
  = let* r := bloom_check_probes iters n bloom s in Ok (fst r).
Proof.
  induction iters as [|iters IH]; intros n bloom; [reflexivity|].
  cbn [bloom_check_loop bloom_check_probes].
  destruct (load (hash bloom) n) as [fp|]; [cbn [bind]|reflexivity].
  destruct (umod (to_uint (fp s)) (m bloom)) as [idx|]; [cbn [bind]|reflexivity].
  destruct (GETBIT (a bloom) idx) as [v|]; [cbn [bind]|reflexivity].
  destruct (v =? 0); [reflexivity|].
  destruct (int_incr n) as [n'|]; [cbn [bind]|reflexivity].
  rewrite IH. destruct (bloom_check_probes iters n' bloom s); reflexivity.
Qed.

End Loops.

(** ** The two operations on a well-formed filter *)

Section Operations.

Implicit Types (bloom : bloom_t) (s x : string) (i : Z).

Lemma bloom_wf_elim bloom :
  bloom_wf bloom = true ->
  m bloom <= CHAR_BIT * Z.of_nat (length (a bloom))
  /\ forallb is_uchar (a bloom) = true
  /\ k bloom = Z.of_nat (length (hash bloom))
  /\ k bloom <= INT_MAX.
Proof.
  unfold bloom_wf. rewrite !andb_true_iff. intros [[[H1 H2] H3] H4].
  repeat split; [lia|assumption|lia|lia].
Qed.

Lemma bloom_wf_intro bloom :
  m bloom <= CHAR_BIT * Z.of_nat (length (a bloom)) ->
  forallb is_uchar (a bloom) = true ->
  k bloom = Z.of_nat (length (hash bloom)) ->
  k bloom <= INT_MAX ->
  bloom_wf bloom = true.
Proof.
  intros H1 H2 H3 H4. unfold bloom_wf. rewrite !andb_true_iff.
  repeat split; [lia|assumption|lia|lia].
Qed.

Lemma bloom_indices_range bloom s i :
  0 < m bloom -> In i (bloom_indices bloom s) ->
  0 <= i < m bloom /\ i <= UINT_MAX.
Proof.
  intros Hm Hin. unfold bloom_indices in Hin.
  apply in_map_iff in Hin. destruct Hin as (fp & <- & _).
  apply bit_index_range. assumption.
Qed.

Lemma bloom_indices_same bloom bloom' s :
  m bloom' = m bloom -> hash bloom' = hash bloom ->
  bloom_indices bloom' s = bloom_indices bloom s.
Proof.
  intros Hm Hh. unfold bloom_indices, bit_index. rewrite Hm, Hh. reflexivity.
Qed.

Lemma bloom_add_spec bloom s :
  bloom_wf bloom = true -> 1 <= m bloom ->
  exists bloom',
    bloom_add bloom s = Ok bloom'
    /\ m bloom' = m bloom /\ k bloom' = k bloom /\ hash bloom' = hash bloom
    /\ length (a bloom') = length (a bloom)
    /\ bloom_wf bloom' = true
    /\ forall i, 0 <= i ->
         bit_at (a bloom') i
         = bit_at (a bloom) i || existsb (Z.eqb i) (bloom_indices bloom s).
Proof.
  intros Hwf Hm. destruct (bloom_wf_elim bloom Hwf) as (Hcov & Huc & Hk & Hmax).
  destruct (bloom_add_loop_spec s (Z.to_nat (k bloom)) 0 bloom)
    as (arr & Hrun & Hlen & Huc' & Hbits); try lia.
  exists (with_a bloom arr). repeat split; auto.
  apply bloom_wf_intro; simpl; auto. rewrite Hlen. assumption.
Qed.

Lemma bloom_check_traced_spec bloom s :
  bloom_wf bloom = true -> 1 <= m bloom ->
  bloom_check_traced bloom s
  = Ok (forallb (bit_at (a bloom)) (bloom_indices bloom s),
        examined (a bloom) (bloom_indices bloom s)).
Proof.
  intros Hwf Hm. destruct (bloom_wf_elim bloom Hwf) as (Hcov & Huc & Hk & Hmax).
  unfold bloom_check_traced.
  rewrite bloom_check_probes_spec by lia. reflexivity.
Qed.

Lemma bloom_check_spec bloom s :
  bloom_wf bloom = true -> 1 <= m bloom ->
  bloom_check bloom s = Ok (forallb (bit_at (a bloom)) (bloom_indices bloom s)).
Proof.
  intros Hwf Hm. unfold bloom_check. rewrite bloom_check_probes_fst.
  fold (bloom_check_traced bloom s).
  rewrite bloom_check_traced_spec by assumption. reflexivity.
Qed.

(** Two byte arrays with the same bits are the same array. *)
Lemma array_ext (arr1 arr2 : list Z) :
  length arr1 = length arr2 ->
  forallb is_uchar arr1 = true -> forallb is_uchar arr2 = true ->
  (forall i, 0 <= i -> bit_at arr1 i = bit_at arr2 i) ->
  arr1 = arr2.
Proof.
  intros Hlen Hu1 Hu2 Hbits. apply list_eq. intros j.
  destruct (arr1 !! j) as [b1|] eqn:H1, (arr2 !! j) as [b2|] eqn:H2.
  - f_equal. apply uchar_ext.
    + rewrite forallb_forall in Hu1. apply Hu1, list_elem_of_In, list_elem_of_lookup. eauto.
    + rewrite forallb_forall in Hu2. apply Hu2, list_elem_of_In, list_elem_of_lookup. eauto.
    + intros p Hp. specialize (Hbits (CHAR_BIT * Z.of_nat j + p)).
      unfold bit_at in Hbits. rewrite CHAR_BIT_eq in *.
      replace ((8 * Z.of_nat j + p) / 8) with (Z.of_nat j) in Hbits
        by (apply Z.div_unique with p; lia).
      replace ((8 * Z.of_nat j + p) mod 8) with p in Hbits
        by (apply Z.mod_unique with (Z.of_nat j); lia).
      rewrite Nat2Z.id, H1, H2 in Hbits. apply Hbits. lia.
  - apply lookup_lt_Some in H1. apply lookup_ge_None in H2. lia.
  - apply lookup_ge_None in H1. apply lookup_lt_Some in H2. lia.
  - reflexivity.
Qed.

Lemma existsb_eqb_In i (l : list Z) : existsb (Z.eqb i) l = true <-> In i l.
Proof.
  rewrite existsb_exists. split.
  - intros (y & Hy & Heq). apply Z.eqb_eq in Heq. congruence.
  - intros Hin. exists i. split; [assumption|apply Z.eqb_refl].
Qed.

(** Adding a key whose bits are all set leaves the filter as it is. *)
Lemma bloom_add_absorb bloom s :
  bloom_wf bloom = true -> 1 <= m bloom ->
  forallb (bit_at (a bloom)) (bloom_indices bloom s) = true ->
  bloom_add bloom s = Ok bloom.
Proof.
  intros Hwf Hm Hall.
  destruct (bloom_add_spec bloom s Hwf Hm)
    as (bloom' & Hadd & Hm' & Hk' & Hh' & Hlen & Hwf' & Hbits).
  rewrite Hadd. f_equal.
  destruct (bloom_wf_elim bloom Hwf) as (_ & Huc & _).
  destruct (bloom_wf_elim bloom' Hwf') as (_ & Huc' & _).
  assert (Ha : a bloom' = a bloom).
  { apply array_ext; auto. intros i Hi. rewrite Hbits by assumption.
    destruct (existsb (Z.eqb i) (bloom_indices bloom s)) eqn:Hex.
    - apply existsb_eqb_In in Hex. rewrite forallb_forall in Hall.
      rewrite (Hall i Hex). reflexivity.
    - apply orb_false_r. }
  destruct bloom, bloom'. simpl in *. congruence.
Qed.

(** After [bloom_add], every bit of the key is set. *)
Lemma bloom_add_sets bloom bloom' s :
  bloom_wf bloom = true -> 1 <= m bloom ->
  bloom_add bloom s = Ok bloom' ->
  forallb (bit_at (a bloom')) (bloom_indices bloom' s) = true.
Proof.
  intros Hwf Hm Hadd.
  destruct (bloom_add_spec bloom s Hwf Hm)
    as (bloom1 & Hadd1 & Hm' & Hk' & Hh' & Hlen & Hwf' & Hbits).
  rewrite Hadd in Hadd1. injection Hadd1 as <-.
  rewrite (bloom_indices_same bloom bloom') by assumption.
  apply forallb_forall. intros i Hin.
  destruct (bloom_indices_range bloom s i) as [Hi _]; [lia|assumption|].
  rewrite Hbits by lia.
  apply orb_true_iff. right. apply existsb_eqb_In. assumption.
Qed.

Lemma extends_refl bloom : bloom_wf bloom = true -> extends bloom bloom.
Proof. intros Hwf. repeat split; auto. Qed.

Lemma extends_trans b3 b2 b1 : extends b3 b2 -> extends b2 b1 -> extends b3 b1.
Proof.
  intros (Hm & Hk & Hh & Hwf & Hb) (Hm' & Hk' & Hh' & Hwf' & Hb').
  repeat split; try congruence. auto.
Qed.

Lemma bloom_add_extends bloom s :
  bloom_wf bloom = true -> 1 <= m bloom ->
  exists bloom', bloom_add bloom s = Ok bloom' /\ extends bloom' bloom.
Proof.
  intros Hwf Hm.
  destruct (bloom_add_spec bloom s Hwf Hm)
    as (bloom' & Hadd & Hm' & Hk' & Hh' & Hlen & Hwf' & Hbits).
  exists bloom'. split; [assumption|]. repeat split; auto.
  intros i Hi Hset. rewrite Hbits, Hset by assumption. reflexivity.
Qed.

Lemma bloom_check_extends later bloom x :
  bloom_wf bloom = true -> 1 <= m bloom -> extends later bloom ->
  bloom_check bloom x = Ok true -> bloom_check later x = Ok true.
Proof.
  intros Hwf Hm (Hm' & Hk' & Hh' & Hwf' & Hb) Hchk.
  rewrite bloom_check_spec in Hchk by assumption.
  rewrite bloom_check_spec by (assumption || lia).
  rewrite (bloom_indices_same bloom later) by assumption.
  injection Hchk as Hall. f_equal.
  rewrite forallb_forall in *. intros i Hin.
  destruct (bloom_indices_range bloom x i) as [Hi _]; [lia|assumption|].
  apply Hb; [lia|]. apply Hall. assumption.
Qed.

Lemma bloom_add_all_extends (keys : list string) : forall bloom,
  bloom_wf bloom = true -> 1 <= m bloom ->
  exists bloom', bloom_add_all bloom keys = Ok bloom' /\ extends bloom' bloom.
Proof.
  induction keys as [|s keys IH]; intros bloom Hwf Hm.
  - exists bloom. split; [reflexivity|apply extends_refl; assumption].
  - destruct (bloom_add_extends bloom s Hwf Hm) as (b1 & Hadd & Hext).
    destruct (IH b1) as (b2 & Hall & Hext2).
    { apply Hext. } { destruct Hext as (-> & _). assumption. }
    exists b2. split.
    + simpl. rewrite Hadd. exact Hall.
    + eapply extends_trans; eassumption.
Qed.

Lemma run_extends (calls : list call) : forall bloom,
  bloom_wf bloom = true -> 1 <= m bloom ->
  exists bloom' answers,
    run bloom calls = Ok (bloom', answers) /\ extends bloom' bloom.
Proof.
  induction calls as [|[s|s] calls IH]; intros bloom Hwf Hm.
  - exists bloom, []. split; [reflexivity|apply extends_refl; assumption].
  - destruct (bloom_add_extends bloom s Hwf Hm) as (b1 & Hadd & Hext).
    destruct (IH b1) as (b2 & answers & Hrun & Hext2).
    { apply Hext. } { destruct Hext as (-> & _). assumption. }
    exists b2, answers. split.
    + simpl. rewrite Hadd. exact Hrun.
    + eapply extends_trans; eassumption.
  - destruct (IH bloom Hwf Hm) as (b2 & answers & Hrun & Hext2).
    exists b2, (forallb (bit_at (a bloom)) (bloom_indices bloom s) :: answers).
    split; [|assumption].
    simpl. rewrite bloom_check_spec by assumption. simpl.
    rewrite Hrun. reflexivity.
Qed.

End Operations.

(** ** Construction *)

Section Construction.

Implicit Types (heap : allocator) (size num_hashes : Z) (bloom : bloom_t).

Lemma ROUND_no_wrap size :
  0 <= size -> size + (CHAR_BIT - 1) <= SIZE_MAX ->
  ROUND size = (size + (CHAR_BIT - 1)) / CHAR_BIT.
Proof.
  intros H0 Hmax. unfold ROUND, to_size_t.
  rewrite Zminus_mod_idemp_l.
  replace (size + CHAR_BIT - 1) with (size + (CHAR_BIT - 1)) by lia.
  rewrite Z.mod_small; [reflexivity|]. rewrite CHAR_BIT_eq in *. lia.
Qed.

Lemma ROUND_covers size :
  0 <= size -> size + (CHAR_BIT - 1) <= SIZE_MAX ->
  size <= CHAR_BIT * ROUND size.
Proof.
  intros H0 Hmax. rewrite ROUND_no_wrap by assumption.
  rewrite CHAR_BIT_eq in *.
  pose proof (Z.div_mod (size + (8 - 1)) 8 ltac:(lia)).
  pose proof (Z.mod_pos_bound (size + (8 - 1)) 8 ltac:(lia)). lia.
Qed.

Lemma ROUND_nonneg size : 0 <= ROUND size.
Proof.
  unfold ROUND. apply Z.div_pos; [|rewrite CHAR_BIT_eq; lia].
  unfold to_size_t. apply Z.mod_pos_bound. reflexivity.
Qed.

Lemma calloc_is_uchar (len : nat) : forallb is_uchar (replicate len 0) = true.
Proof. induction len as [|len IH]; [reflexivity|]. simpl. exact IH. Qed.

Lemma calloc_bit_clear (len : nat) (i : Z) : bit_at (replicate len 0) i = false.
Proof.
  unfold bit_at.
  destruct (replicate len 0 !! Z.to_nat (i / CHAR_BIT)) as [byte|] eqn:Hb;
    [|reflexivity].
  apply lookup_replicate in Hb. destruct Hb as [-> _]. apply Z.bits_0.
Qed.

(** What a run of the table loop that completes has done. *)
Lemma bloom_new_loop_inv (iters : nat) : forall n slots (ap tbl t : list hashfp_t),
  bloom_new_loop iters n slots ap tbl = Ok t ->
  t = tbl ++ take iters ap
  /\ (iters <= length ap)%nat
  /\ (iters <> O -> n + Z.of_nat iters <= INT_MAX \/ n < 0).
Proof.
  induction iters as [|iters IH]; intros n slots ap tbl t Hrun.
  - simpl in Hrun. injection Hrun as <-. rewrite take_0, app_nil_r.
    repeat split; [lia|congruence].
  - destruct ap as [|fp ap]; [discriminate|]. cbn [bloom_new_loop] in Hrun.
    destruct (n <? slots); [|discriminate].
    unfold int_incr in Hrun. destruct (Z.ltb_spec n INT_MAX); [|discriminate].
    cbn [bind] in Hrun. apply IH in Hrun. destruct Hrun as (-> & Hlen & Hmax).
    repeat split.
    + rewrite <- app_assoc. reflexivity.
    + simpl. lia.
    + intros _. destruct iters; [lia|]. destruct Hmax; [congruence|lia|lia].
Qed.

(** The filter a successful call returns. *)
Lemma bloom_new_Some heap size num_hashes (hashes : list hashfp_t) bloom :
  0 <= num_hashes ->
  bloom_new heap size num_hashes hashes = Ok (Some bloom) ->
  bloom = {| m := size; k := num_hashes;
             a := replicate (Z.to_nat (ROUND size)) 0;
             hash := take (Z.to_nat num_hashes) hashes |}
  /\ k bloom = Z.of_nat (length (hash bloom))
  /\ k bloom <= INT_MAX.
Proof.
  intros Hk Hnew. unfold bloom_new in Hnew.
  destruct (malloc_bloom heap); [|discriminate].
  destruct (calloc_a heap); [|discriminate].
  destruct (malloc_hash heap); [|discriminate].
  cbn [negb] in Hnew.
  destruct (bloom_new_loop _ _ _ _ _) as [tbl|] eqn:Hloop; [|discriminate].
  cbn [bind] in Hnew. injection Hnew as <-.
  apply bloom_new_loop_inv in Hloop. destruct Hloop as (-> & Hlen & Hmax).
  simpl. repeat split.
  - rewrite length_take. lia.
  - destruct (Z.to_nat num_hashes) eqn:Hn; [unfold INT_MAX; lia|].
    destruct Hmax; [congruence|lia|lia].
Qed.

(** A filter constructed with a size whose rounding does not wrap is
    well formed and has no bit set. *)
Lemma bloom_new_wf heap size num_hashes (hashes : list hashfp_t) bloom :
  0 <= size -> size + (CHAR_BIT - 1) <= SIZE_MAX -> 0 <= num_hashes ->
  bloom_new heap size num_hashes hashes = Ok (Some bloom) ->
  bloom_wf bloom = true
  /\ m bloom = size /\ k bloom = num_hashes
  /\ hash bloom = take (Z.to_nat num_hashes) hashes
  /\ forall i, bit_at (a bloom) i = false.
Proof.
  intros H0 Hmax Hk Hnew.
  destruct (bloom_new_Some _ _ _ _ _ Hk Hnew) as (Heq & Hlen & Hint).
  assert (Ha : a bloom = replicate (Z.to_nat (ROUND size)) 0) by (subst; reflexivity).
  repeat split.
  - apply bloom_wf_intro; auto.
    + rewrite Ha, length_replicate, Z2Nat.id by apply ROUND_nonneg.
      subst bloom. simpl. apply ROUND_covers; assumption.
    + rewrite Ha. apply calloc_is_uchar.
  - subst; reflexivity.
  - subst; reflexivity.
  - subst; reflexivity.
  - intros i. rewrite Ha. apply calloc_bit_clear.
Qed.

(** Every key fails the check of a well-formed filter with a hash
    function and no bit set. *)
Lemma bloom_check_clear bloom (s : string) :
  bloom_wf bloom = true -> 1 <= m bloom -> 1 <= k bloom ->
  (forall i, bit_at (a bloom) i = false) ->
  bloom_check bloom s = Ok false.
Proof.
  intros Hwf Hm Hk Hclear. rewrite bloom_check_spec by assumption. f_equal.
  destruct (bloom_wf_elim bloom Hwf) as (_ & _ & Hlen & _).
  unfold bloom_indices. destruct (hash bloom) as [|fp tbl]; [simpl in Hlen; lia|].
  simpl. rewrite Hclear. reflexivity.
Qed.

End Construction.

(** * The properties of the filter *)

Section NoFalseNegatives.

(** C1 -- No false negatives: for a well-formed filter with [m >= 1]
    and any key [x], [bloom_add] returns a filter on which [bloom_check]
    answers true for [x], and the answer is still true after any further
    sequence of [bloom_add] calls on any keys.  (The number of hash
    functions plays no part: the statement holds for every [k].) *)
Theorem no_false_negatives (bloom : bloom_t) (x : string) (keys : list string) :
  bloom_wf bloom = true -> 1 <= m bloom ->
  exists b1,
    bloom_add bloom x = Ok b1
    /\ bloom_check b1 x = Ok true
    /\ exists b2,
         bloom_add_all b1 keys = Ok b2 /\ bloom_check b2 x = Ok true.
Proof.
  intros Hwf Hm.
  destruct (bloom_add_spec bloom x Hwf Hm)
    as (b1 & Hadd & Hm1 & _ & _ & _ & Hwf1 & _).
  assert (Hchk : bloom_check b1 x = Ok true).
  { rewrite bloom_check_spec by (assumption || lia).
    rewrite (bloom_add_sets bloom b1 x) by assumption. reflexivity. }
  exists b1. repeat split; try assumption.
  destruct (bloom_add_all_extends keys b1) as (b2 & Hall & Hext);
    [assumption|lia|].
  exists b2. split; [assumption|].
  apply (bloom_check_extends b2 b1); (assumption || lia).
Qed.

Lemma no_false_negatives_witness :
  bloom_wf sample_bloom = true /\ 1 <= m sample_bloom
  /\ exists b1,
       bloom_add sample_bloom "apple" = Ok b1
       /\ bloom_check b1 "apple" = Ok true
       /\ exists b2,
            bloom_add_all b1 ["banana"; "cherry"] = Ok b2
            /\ bloom_check b2 "apple" = Ok true.
Proof.
  split; [reflexivity|]. split; [simpl; lia|].
  apply (no_false_negatives sample_bloom "apple" ["banana"; "cherry"]);
    [reflexivity|simpl; lia].
Defined.

End NoFalseNegatives.

Section Check.

(** C2 -- [bloom_check] derives from the hash functions, in the order of
    the table, the bit indices [(unsigned int) hash[j](s) mod m] (which
    is [hash[j](s) mod m] for a hash value within [unsigned int]); its
    answer is true exactly when all [k] bits are set; and it reads the
    bits in that order and stops at the first clear one: the indices it
    has read are then those up to and including that one, and the
    answer is false. *)
Theorem bloom_check_short_circuit (bloom : bloom_t) (s : string) :
  bloom_wf bloom = true -> 1 <= m bloom ->
  let idxs := bloom_indices bloom s in
  Z.of_nat (length idxs) = k bloom
  /\ (forall (j : nat) (fp : hashfp_t),
        hash bloom !! j = Some fp ->
        idxs !! j = Some (to_uint (fp s) mod m bloom)
        /\ (0 <= fp s <= UINT_MAX -> idxs !! j = Some (fp s mod m bloom)))
  /\ bloom_check bloom s = Ok (forallb (bit_at (a bloom)) idxs)
  /\ (bloom_check bloom s = Ok true
      <-> forall i, In i idxs -> bit_at (a bloom) i = true)
  /\ (exists probes,
        bloom_check_traced bloom s = Ok (forallb (bit_at (a bloom)) idxs, probes))
  /\ (forall pre i post,
        idxs = pre ++ i :: post ->
        forallb (bit_at (a bloom)) pre = true ->
        bit_at (a bloom) i = false ->
        bloom_check bloom s = Ok false
        /\ bloom_check_traced bloom s = Ok (false, pre ++ [i]))
  /\ (forallb (bit_at (a bloom)) idxs = true ->
      bloom_check_traced bloom s = Ok (true, idxs)).
Proof.
  intros Hwf Hm idxs.
  destruct (bloom_wf_elim bloom Hwf) as (_ & _ & Hlen & _).
  pose proof (bloom_check_spec bloom s Hwf Hm) as Hchk.
  pose proof (bloom_check_traced_spec bloom s Hwf Hm) as Htr.
  fold idxs in Hchk, Htr.
  assert (Hex_app : forall pre i post,
             forallb (bit_at (a bloom)) pre = true ->
             bit_at (a bloom) i = false ->
             examined (a bloom) (pre ++ i :: post) = pre ++ [i]
             /\ forallb (bit_at (a bloom)) (pre ++ i :: post) = false).
  { induction pre as [|p pre IH]; intros i post Hpre Hi; simpl.
    - rewrite Hi. split; reflexivity.
    - simpl in Hpre. apply andb_true_iff in Hpre. destruct Hpre as [Hp Hpre].
      rewrite Hp. destruct (IH i post Hpre Hi) as [-> ->]. split; reflexivity. }
  assert (Hex_all : forall l,
             forallb (bit_at (a bloom)) l = true -> examined (a bloom) l = l).
  { induction l as [|p l IH]; simpl; [reflexivity|]. intros Hl.
    apply andb_true_iff in Hl. destruct Hl as [Hp Hl].
    rewrite Hp, IH by assumption. reflexivity. }
  split; [|split; [|split; [|split; [|split; [|split]]]]].
  - subst idxs. unfold bloom_indices. rewrite length_map. lia.
  - intros j fp Hfp. subst idxs. unfold bloom_indices.
    rewrite list_lookup_fmap, Hfp. simpl. split; [reflexivity|].
    intros Hfit. unfold bit_index, to_uint.
    rewrite (Z.mod_small (fp s)) by lia. reflexivity.
  - exact Hchk.
  - rewrite Hchk. split.
    + intros Heq. injection Heq as Hall.
      rewrite forallb_forall in Hall. exact Hall.
    + intros Hall. f_equal. apply forallb_forall. exact Hall.
  - eexists. exact Htr.
  - intros pre i post Hsplit Hpre Hi. rewrite Hchk, Htr, Hsplit.
    destruct (Hex_app pre i post Hpre Hi) as [-> ->]. split; reflexivity.
  - intros Hall. rewrite Htr, Hall, Hex_all by assumption. reflexivity.
Qed.

Lemma bloom_check_short_circuit_witness :
  bloom_wf sample_bloom = true /\ 1 <= m sample_bloom
  /\ bloom_check sample_bloom "apple" = Ok false
  /\ exists i, bloom_check_traced sample_bloom "apple" = Ok (false, [i]).
Proof.
  split; [reflexivity|]. split; [simpl; lia|].
  pose proof (bloom_check_short_circuit sample_bloom "apple" eq_refl
                ltac:(simpl; lia)) as H.
  cbv zeta in H. destruct H as (_ & _ & _ & _ & _ & Hfirst & _).
  destruct (Hfirst [] (bit_index sample_bloom "apple" djb2)
              [bit_index sample_bloom "apple" sdbm]) as [Hc Ht];
    [reflexivity|reflexivity|reflexivity|].
  split; [exact Hc|]. eexists. exact Ht.
Defined.

End Check.

Section Add.

(** C3 -- [bloom_add] returns a filter in which the bits at the indices
    [(unsigned int) hash[j](s) mod m], [j] in [0..k), are set and every
    other bit of the array is as before; [m], [k], the table and the
    length of the array are unchanged, so that at most [k] bits differ. *)
Theorem bloom_add_frame (bloom : bloom_t) (s : string) :
  bloom_wf bloom = true -> 1 <= m bloom ->
  let idxs := bloom_indices bloom s in
  exists bloom',
    bloom_add bloom s = Ok bloom'
    /\ m bloom' = m bloom /\ k bloom' = k bloom /\ hash bloom' = hash bloom
    /\ length (a bloom') = length (a bloom)
    /\ idxs = map (fun fp : hashfp_t => to_uint (fp s) mod m bloom) (hash bloom)
    /\ Z.of_nat (length idxs) = k bloom
    /\ (forall i, In i idxs -> bit_at (a bloom') i = true)
    /\ (forall i, 0 <= i -> ~ In i idxs ->
          bit_at (a bloom') i = bit_at (a bloom) i)
    /\ (forall i, 0 <= i -> bit_at (a bloom') i <> bit_at (a bloom) i ->
          In i idxs /\ bit_at (a bloom') i = true).
Proof.
  intros Hwf Hm idxs.
  destruct (bloom_add_spec bloom s Hwf Hm)
    as (bloom' & Hadd & Hm' & Hk' & Hh' & Hlen & Hwf' & Hbits).
  destruct (bloom_wf_elim bloom Hwf) as (_ & _ & Hk & _).
  fold idxs in Hbits.
  assert (Hin : forall i, In i idxs -> bit_at (a bloom') i = true).
  { intros i Hi.
    destruct (bloom_indices_range bloom s i) as [Hr _]; [lia|exact Hi|].
    rewrite Hbits by lia. apply orb_true_iff. right.
    apply existsb_eqb_In. exact Hi. }
  assert (Hout : forall i, 0 <= i -> ~ In i idxs ->
                   bit_at (a bloom') i = bit_at (a bloom) i).
  { intros i Hi Hnot. rewrite Hbits by assumption.
    destruct (existsb (Z.eqb i) idxs) eqn:Hex.
    - apply existsb_eqb_In in Hex. contradiction.
    - apply orb_false_r. }
  exists bloom'. do 6 (split; [auto|]).
  split; [subst idxs; unfold bloom_indices; rewrite length_map; lia|].
  split; [exact Hin|]. split; [exact Hout|].
  intros i Hi Hdiff.
  destruct (in_dec Z.eq_dec i idxs) as [Hi'|Hi']; [auto|].
  exfalso. apply Hdiff. apply Hout; assumption.
Qed.

Lemma bloom_add_frame_witness :
  bloom_wf sample_bloom = true /\ 1 <= m sample_bloom
  /\ exists bloom',
       bloom_add sample_bloom "apple" = Ok bloom'
       /\ a bloom' = [128; 4]
       /\ bloom_indices sample_bloom "apple" = [7; 10].
Proof.
  split; [reflexivity|]. split; [simpl; lia|].
  destruct (bloom_add_frame sample_bloom "apple" eq_refl ltac:(simpl; lia))
    as (bloom' & Hadd & _).
  exists bloom'. split; [exact Hadd|].
  vm_compute in Hadd. injection Hadd as <-. split; reflexivity.
Defined.

(** C5 -- Idempotence of [bloom_add]: calling it [count >= 1] times in
    succession with the same key returns the very filter (bit array
    included) that a single call returns. *)
Theorem bloom_add_idempotent (bloom : bloom_t) (s : string) (count : nat) :
  bloom_wf bloom = true -> 1 <= m bloom -> (1 <= count)%nat ->
  exists b1,
    bloom_add bloom s = Ok b1
    /\ bloom_add_times count bloom s = Ok b1.
Proof.
  intros Hwf Hm Hcount.
  destruct (bloom_add_spec bloom s Hwf Hm)
    as (b1 & Hadd & Hm1 & _ & _ & _ & Hwf1 & _).
  exists b1. split; [assumption|].
  pose proof (bloom_add_sets bloom b1 s Hwf Hm Hadd) as Hset.
  assert (Hfix : bloom_add b1 s = Ok b1)
    by (apply bloom_add_absorb; (assumption || lia)).
  assert (Hrep : forall c, bloom_add_times c b1 s = Ok b1).
  { induction c as [|c IH]; [reflexivity|].
    simpl. rewrite Hfix. exact IH. }
  destruct count as [|count]; [lia|].
  simpl. rewrite Hadd. apply Hrep.
Qed.

Lemma bloom_add_idempotent_witness :
  bloom_wf sample_bloom = true /\ 1 <= m sample_bloom /\ (1 <= 3)%nat
  /\ exists b1,
       bloom_add sample_bloom "apple" = Ok b1
       /\ bloom_add_times 3 sample_bloom "apple" = Ok b1.
Proof.
  split; [reflexivity|]. split; [simpl; lia|]. split; [lia|].
  apply (bloom_add_idempotent sample_bloom "apple" 3);
    [reflexivity|simpl; lia|lia].
Defined.

End Add.

Section Monotone.

(** C4 -- Monotonicity: any sequence of [bloom_add] and [bloom_check]
    calls on a well-formed filter with [m >= 1] runs to completion and
    leaves every bit that was set still set ([bloom_add] only sets
    bits, [bloom_check] hands the filter on unchanged); hence a key for
    which [bloom_check] answers true keeps that answer after the
    sequence. *)
Theorem bloom_monotone (bloom : bloom_t) (calls : list call) :
  bloom_wf bloom = true -> 1 <= m bloom ->
  (forall x, exists answer, run bloom [Check x] = Ok (bloom, [answer]))
  /\ exists bloom' answers,
       run bloom calls = Ok (bloom', answers)
       /\ (forall i, 0 <= i ->
             bit_at (a bloom) i = true -> bit_at (a bloom') i = true)
       /\ (forall x,
             bloom_check bloom x = Ok true -> bloom_check bloom' x = Ok true).
Proof.
  intros Hwf Hm. split.
  - intros x. simpl. rewrite bloom_check_spec by assumption.
    eexists. reflexivity.
  - destruct (run_extends calls bloom Hwf Hm) as (bloom' & answers & Hrun & Hext).
    exists bloom', answers. repeat split; [assumption|apply Hext|].
    intros x. apply bloom_check_extends; assumption.
Qed.

Lemma bloom_monotone_witness :
  bloom_wf sample_bloom = true /\ 1 <= m sample_bloom
  /\ exists bloom' answers,
       run sample_bloom [Add "apple"; Check "apple"; Add "banana"; Check "cherry"]
       = Ok (bloom', answers)
       /\ (forall x, bloom_check sample_bloom x = Ok true ->
                     bloom_check bloom' x = Ok true).
Proof.
  split; [reflexivity|]. split; [simpl; lia|].
  destruct (bloom_monotone sample_bloom
              [Add "apple"; Check "apple"; Add "banana"; Check "cherry"]
              eq_refl ltac:(simpl; lia))
    as (_ & bloom' & answers & Hrun & _ & Hchk).
  exists bloom', answers. split; assumption.
Defined.

End Monotone.

Section Fresh.

Implicit Types (heap : allocator) (size num_hashes : Z) (bloom : bloom_t).

(** At [size = SIZE_MAX] the sum inside [ROUND] wraps around: [calloc]
    is asked for zero bytes, the call returns a filter with
    [m = SIZE_MAX], one hash function and an empty array, and
    [bloom_check] on that filter reads outside the array. *)
Lemma bloom_new_round_wraps (fp : hashfp_t) (s : string) :
  ROUND SIZE_MAX = 0
  /\ bloom_new heap_ok SIZE_MAX 1 [fp]
     = Ok (Some {| m := SIZE_MAX; k := 1; a := []; hash := [fp] |})
  /\ bloom_check {| m := SIZE_MAX; k := 1; a := []; hash := [fp] |} s
     = Undefined.
Proof.
  split; [reflexivity|]. split; [reflexivity|].
  unfold bloom_check. change (Z.to_nat (k _)) with 1%nat.
  cbn [bloom_check_loop hash m a].
  change (load [fp] 0) with (Ok fp). cbn [bind].
  unfold umod. change (SIZE_MAX =? 0) with false. cbn [bind].
  unfold GETBIT, load.
  destruct (_ / CHAR_BIT <? 0); reflexivity.
Qed.

Lemma run_checks_clear bloom (keys : list string) :
  (forall s, bloom_check bloom s = Ok false) ->
  run bloom (map Check keys) = Ok (bloom, map (fun _ => false) keys).
Proof.
  intros Hfalse. induction keys as [|s keys IH]; [reflexivity|].
  simpl. rewrite Hfalse. simpl. rewrite IH. reflexivity.
Qed.

(** Below the sizes at which [ROUND] wraps around, a fresh filter is
    empty: constructed with [1 <= size <= SIZE_MAX - (CHAR_BIT - 1)] and
    at least one hash function it has every bit of its array clear, and
    [bloom_check] answers false for every key, also after any number of
    further [bloom_check] calls, which leave the filter as it is. *)
Lemma fresh_filter_empty heap size num_hashes (hashes : list hashfp_t) bloom :
  1 <= size -> size <= SIZE_MAX - (CHAR_BIT - 1) -> 1 <= num_hashes ->
  bloom_new heap size num_hashes hashes = Ok (Some bloom) ->
  m bloom = size /\ k bloom = num_hashes
  /\ (forall i, bit_at (a bloom) i = false)
  /\ (forall s, bloom_check bloom s = Ok false)
  /\ (forall keys,
        run bloom (map Check keys) = Ok (bloom, map (fun _ => false) keys)).
Proof.
  intros Hsize Hmax Hk Hnew.
  destruct (bloom_new_wf heap size num_hashes hashes bloom)
    as (Hwf & Hm & Hk' & _ & Hclear); try (assumption || lia).
  assert (Hfalse : forall s, bloom_check bloom s = Ok false)
    by (intros s; apply bloom_check_clear; (assumption || lia)).
  do 4 (split; [assumption|]).
  intros keys. apply run_checks_clear. exact Hfalse.
Qed.

Lemma fresh_filter_empty_witness :
  1 <= 16 /\ 16 <= SIZE_MAX - (CHAR_BIT - 1) /\ 1 <= 2
  /\ exists bloom,
       bloom_new heap_ok 16 2 [djb2; sdbm] = Ok (Some bloom)
       /\ (forall i, bit_at (a bloom) i = false)
       /\ (forall s, bloom_check bloom s = Ok false).
Proof.
  split; [lia|]. split; [rewrite CHAR_BIT_eq; unfold SIZE_MAX; lia|].
  split; [lia|].
  exists {| m := 16; k := 2; a := [0; 0]; hash := [djb2; sdbm] |}.
  split; [reflexivity|].
  destruct (fresh_filter_empty heap_ok 16 2 [djb2; sdbm]
              {| m := 16; k := 2; a := [0; 0]; hash := [djb2; sdbm] |})
    as (_ & _ & Hclear & Hfalse & _);
    [lia|rewrite CHAR_BIT_eq; unfold SIZE_MAX; lia|lia|reflexivity|].
  split; assumption.
Defined.

(** C6 -- Empty filter, at the top of [size_t]: the claim is that a
    fresh filter with [m >= 1] and [k >= 1] has its bits clear and
    answers false to every [bloom_check].  [ROUND] rounds the size up to
    whole bytes, and at [SIZE_MAX - (CHAR_BIT - 1)] it still asks
    [calloc] for all [2 ^ 61 - 1] of them; one bit more and its sum
    wraps around, so that at [size = SIZE_MAX] it asks for no byte at
    all.  [bloom_new] then returns a filter with [m = SIZE_MAX], one hash
    function and an empty array, and [bloom_check] on this fresh filter
    reads outside the array instead of answering false. *)
Theorem fresh_filter_round_wraps :
  1 <= SIZE_MAX
  /\ ROUND (SIZE_MAX - (CHAR_BIT - 1)) = 2 ^ 61 - 1
  /\ ROUND SIZE_MAX = 0
  /\ bloom_new heap_ok SIZE_MAX 1 [djb2]
     = Ok (Some {| m := SIZE_MAX; k := 1; a := []; hash := [djb2] |})
  /\ bloom_check {| m := SIZE_MAX; k := 1; a := []; hash := [djb2] |} "apple"
     = Undefined
  /\ ~ (forall heap size num_hashes (hashes : list hashfp_t) bloom (s : string),
          1 <= size <= SIZE_MAX -> 1 <= num_hashes ->
          bloom_new heap size num_hashes hashes = Ok (Some bloom) ->
          bloom_check bloom s = Ok false).
Proof.
  destruct (bloom_new_round_wraps djb2 "apple") as (Hround & Hnew & Hchk).
  split; [unfold SIZE_MAX; lia|]. split; [reflexivity|].
  split; [exact Hround|]. split; [exact Hnew|]. split; [exact Hchk|].
  intros Hclaim.
  specialize (Hclaim heap_ok SIZE_MAX 1 [djb2] _ "apple"
                ltac:(unfold SIZE_MAX; lia) ltac:(lia) Hnew).
  rewrite Hchk in Hclaim. discriminate.
Qed.

End Fresh.

Section TwoRuns.

Implicit Types (heap : allocator) (size num_hashes : Z) (bloom : bloom_t).

Lemma bloom_new_same heap1 heap2 size num_hashes (hashes : list hashfp_t) f1 f2 :
  bloom_new heap1 size num_hashes hashes = Ok (Some f1) ->
  bloom_new heap2 size num_hashes hashes = Ok (Some f2) ->
  f1 = f2.
Proof.
  unfold bloom_new. intros H1 H2.
  destruct (malloc_bloom heap1), (calloc_a heap1), (malloc_hash heap1);
    try discriminate.
  destruct (malloc_bloom heap2), (calloc_a heap2), (malloc_hash heap2);
    try discriminate.
  cbn [negb] in H1, H2. rewrite H1 in H2. congruence.
Qed.

(** Two filters constructed (by two calls, whatever the allocator did)
    with the same size and the same sequence of hash functions have the
    same bit array; for a size from 1 to [SIZE_MAX - (CHAR_BIT - 1)],
    fed the same sequence of [bloom_add] calls, they run to completion,
    end with the same bit array and give the same answer to
    [bloom_check] for every key. *)
Lemma bloom_deterministic heap1 heap2 size num_hashes
    (hashes : list hashfp_t) (keys : list string) f1 f2 :
  bloom_new heap1 size num_hashes hashes = Ok (Some f1) ->
  bloom_new heap2 size num_hashes hashes = Ok (Some f2) ->
  a f1 = a f2
  /\ bloom_add_all f1 keys = bloom_add_all f2 keys
  /\ (forall g1 g2,
        bloom_add_all f1 keys = Ok g1 -> bloom_add_all f2 keys = Ok g2 ->
        a g1 = a g2 /\ forall x, bloom_check g1 x = bloom_check g2 x)
  /\ (1 <= size -> size + (CHAR_BIT - 1) <= SIZE_MAX -> 0 <= num_hashes ->
      exists g1 g2,
        bloom_add_all f1 keys = Ok g1 /\ bloom_add_all f2 keys = Ok g2
        /\ forall x, exists answer,
             bloom_check g1 x = Ok answer /\ bloom_check g2 x = Ok answer).
Proof.
  intros H1 H2.
  assert (f1 = f2) as <- by (eapply bloom_new_same; eassumption).
  split; [reflexivity|]. split; [reflexivity|]. split.
  - intros g1 g2 Hg1 Hg2. rewrite Hg1 in Hg2. injection Hg2 as <-.
    split; reflexivity.
  - intros Hsize Hmax Hk.
    destruct (bloom_new_wf heap1 size num_hashes hashes f1)
      as (Hwf & Hm & _); try (assumption || lia).
    destruct (bloom_add_all_extends keys f1) as (g & Hall & Hext);
      [assumption|lia|].
    exists g, g. repeat split; try assumption.
    intros x. destruct Hext as (Hm' & _ & _ & Hwf' & _).
    eexists. split; apply bloom_check_spec; (assumption || lia).
Qed.

Lemma bloom_deterministic_witness :
  exists f1 f2,
    bloom_new heap_ok 16 2 [djb2; sdbm] = Ok (Some f1)
    /\ bloom_new heap_ok 16 2 [djb2; sdbm] = Ok (Some f2)
    /\ a f1 = a f2
    /\ exists g1 g2,
         bloom_add_all f1 ["apple"; "banana"] = Ok g1
         /\ bloom_add_all f2 ["apple"; "banana"] = Ok g2
         /\ a g1 = a g2
         /\ forall x, bloom_check g1 x = bloom_check g2 x.
Proof.
  pose (f := {| m := 16; k := 2; a := [0; 0]; hash := [djb2; sdbm] |}).
  assert (Hnew : bloom_new heap_ok 16 2 [djb2; sdbm] = Ok (Some f))
    by reflexivity.
  destruct (bloom_deterministic heap_ok heap_ok 16 2 [djb2; sdbm]
              ["apple"; "banana"] f f Hnew Hnew)
    as (Ha & _ & Hsame & Hruns).
  destruct Hruns as (g1 & g2 & Hg1 & Hg2 & _);
    [lia|rewrite CHAR_BIT_eq; unfold SIZE_MAX; lia|lia|].
  exists f, f. repeat split; try assumption.
  exists g1, g2. repeat split; try assumption; apply (Hsame g1 g2 Hg1 Hg2).
Defined.

Lemma bloom_add_round_wraps (fp : hashfp_t) (s : string) :
  bloom_add {| m := SIZE_MAX; k := 1; a := []; hash := [fp] |} s = Undefined.
Proof.
  unfold bloom_add. change (Z.to_nat (k _)) with 1%nat.
  cbn [bloom_add_loop hash m a].
  change (load [fp] 0) with (Ok fp). cbn [bind].
  unfold umod. change (SIZE_MAX =? 0) with false. cbn [bind].
  unfold SETBIT, load.
  destruct (_ / CHAR_BIT <? 0); reflexivity.
Qed.

(** C7 -- Determinism, at the top of [size_t]: the claim is that two
    filters constructed alike and fed the same [bloom_add] calls have
    the same bit array and give the same answers.  At [size = SIZE_MAX]
    the sum inside [ROUND] wraps around and both constructions return a
    filter over an array of no bytes; the first [bloom_add] on either
    writes outside its array and every [bloom_check] reads outside it,
    so that neither the bit arrays nor the answers of the two filters
    are determined: no run of the two filters ends in a state or in an
    answer. *)
Theorem two_filters_round_wraps :
  exists f1 f2,
    bloom_new heap_ok SIZE_MAX 1 [djb2] = Ok (Some f1)
    /\ bloom_new heap_ok SIZE_MAX 1 [djb2] = Ok (Some f2)
    /\ 1 <= m f1 /\ m f1 = m f2 /\ hash f1 = hash f2
    /\ a f1 = [] /\ a f2 = []
    /\ bloom_add f1 "apple" = Undefined
    /\ bloom_add f2 "apple" = Undefined
    /\ bloom_add_all f1 ["apple"; "banana"] = Undefined
    /\ bloom_add_all f2 ["apple"; "banana"] = Undefined
    /\ bloom_check f1 "apple" = Undefined
    /\ bloom_check f2 "apple" = Undefined
    /\ ~ (exists g1 g2,
            bloom_add_all f1 ["apple"; "banana"] = Ok g1
            /\ bloom_add_all f2 ["apple"; "banana"] = Ok g2
            /\ a g1 = a g2).
Proof.
  pose (f := {| m := SIZE_MAX; k := 1; a := []; hash := [djb2] |}).
  destruct (bloom_new_round_wraps djb2 "apple") as (_ & Hnew & Hchk).
  pose proof (bloom_add_round_wraps djb2 "apple") as Hadd.
  assert (Hall : bloom_add_all f ["apple"; "banana"] = Undefined)
    by (unfold f; cbn [bloom_add_all]; rewrite Hadd; reflexivity).
  exists f, f.
  do 2 (split; [exact Hnew|]).
  split; [unfold f, SIZE_MAX; simpl; lia|].
  do 4 (split; [reflexivity|]).
  do 2 (split; [exact Hadd|]). do 2 (split; [exact Hall|]).
  do 2 (split; [exact Hchk|]).
  intros (g1 & g2 & Hg1 & _). rewrite Hall in Hg1. discriminate.
Qed.

End TwoRuns.

Section Collision.

(** C8 -- Forced collision: in a filter constructed with [m = 8] and a
    single hash function that returns the same value for the keys "a"
    and "b", after [bloom_add] of "a" the call [bloom_check] of "b"
    answers true. *)
Theorem forced_collision (heap : allocator) (fp : hashfp_t) (bloom : bloom_t) :
  fp "a" = fp "b" ->
  bloom_new heap 8 1 [fp] = Ok (Some bloom) ->
  exists bloom',
    bloom_add bloom "a" = Ok bloom' /\ bloom_check bloom' "b" = Ok true.
Proof.
  intros Hcol Hnew.
  destruct (bloom_new_wf heap 8 1 [fp] bloom)
    as (Hwf & Hm & Hk & Hh & _);
    [lia|rewrite CHAR_BIT_eq; unfold SIZE_MAX; lia|lia|assumption|].
  simpl in Hh.
  destruct (bloom_add_spec bloom "a") as (bloom' & Hadd & Hm' & _ & Hh' & _ & Hwf' & _);
    [assumption|lia|].
  exists bloom'. split; [assumption|].
  assert (Hidx : bloom_indices bloom' "b" = bloom_indices bloom' "a").
  { unfold bloom_indices, bit_index. rewrite Hh', Hh. simpl.
    rewrite Hcol. reflexivity. }
  rewrite bloom_check_spec, Hidx by (assumption || lia). f_equal.
  apply (bloom_add_sets bloom bloom' "a"); (assumption || lia).
Qed.

Lemma forced_collision_witness :
  (fun _ : string => 3) "a" = (fun _ : string => 3) "b"
  /\ exists bloom,
       bloom_new heap_ok 8 1 [fun _ : string => 3] = Ok (Some bloom)
       /\ bloom_check bloom "b" = Ok false
       /\ exists bloom',
            bloom_add bloom "a" = Ok bloom' /\ bloom_check bloom' "b" = Ok true.
Proof.
  split; [reflexivity|].
  exists {| m := 8; k := 1; a := [0]; hash := [fun _ : string => 3] |}.
  split; [reflexivity|]. split; [reflexivity|].
  apply (forced_collision heap_ok (fun _ : string => 3)); reflexivity.
Defined.

End Collision.

Section NoHashFunctions.

(** C9 -- [bloom_new] accepts [num_hashes = 0]: when its allocations
    succeed it returns a filter with [k = 0], an empty table and every
    bit clear, and [bloom_check] answers true for every key on that
    filter, as it does on any filter with [k = 0], never entering its
    loop. *)
Theorem zero_hash_functions (heap : allocator) (size : Z)
    (hashes : list hashfp_t) (s : string) :
  let fresh := {| m := size; k := 0;
                  a := replicate (Z.to_nat (ROUND size)) 0; hash := [] |} in
  bloom_new heap size 0 hashes
  = (if malloc_bloom heap && calloc_a heap && malloc_hash heap
     then Ok (Some fresh) else Ok None)
  /\ bloom_new heap_ok size 0 hashes = Ok (Some fresh)
  /\ (forall i, bit_at (a fresh) i = false)
  /\ bloom_check fresh s = Ok true
  /\ (forall bloom, k bloom = 0 -> bloom_check bloom s = Ok true).
Proof.
  intros fresh. split; [|split; [|split; [|split]]].
  - unfold bloom_new.
    destruct (malloc_bloom heap), (calloc_a heap), (malloc_hash heap);
      reflexivity.
  - reflexivity.
  - intros i. apply calloc_bit_clear.
  - reflexivity.
  - intros bloom Hk. unfold bloom_check. rewrite Hk. reflexivity.
Qed.

End NoHashFunctions.

Section Truncation.

Implicit Types (bloom : bloom_t) (s : string) (i : Z).

Lemma examined_prefix (arr idxs : list Z) : examined arr idxs `prefix_of` idxs.
Proof.
  induction idxs as [|i idxs IH]; simpl; [reflexivity|].
  destruct (bit_at arr i).
  - apply prefix_cons. exact IH.
  - exists idxs. reflexivity.
Qed.

Lemma forallb_agree (f g : Z -> bool) (l : list Z) :
  (forall i, In i l -> f i = g i) -> forallb f l = forallb g l.
Proof.
  induction l as [|i l IH]; intros Hfg; [reflexivity|].
  simpl. rewrite (Hfg i), IH; auto using in_eq, in_cons.
Qed.

(** A hash value beyond [UINT_MAX] is reduced after its conversion: the
    index differs from the value's own remainder. *)
Lemma truncation_changes_index (s : string) :
  bit_index {| m := 7; k := 1; a := [0]; hash := [fun _ => 2 ^ 32 + 5] |} s
    (fun _ => 2 ^ 32 + 5) = 5
  /\ (2 ^ 32 + 5) mod 7 = 2.
Proof. split; reflexivity. Qed.

(** C10 -- Both operations convert a hash value to [unsigned int]
    (modulo [2 ^ 32]) before reducing it modulo [m]: the indices
    [bloom_add] sets and those [bloom_check] reads come from the same
    list, each of them is below [2 ^ 32] (and below [m]), no bit at an
    index from [2 ^ 32] on is changed by [bloom_add], and the answer of
    [bloom_check] does not depend on such bits. *)
Theorem hash_truncation bloom s :
  bloom_wf bloom = true -> 1 <= m bloom ->
  let idxs := bloom_indices bloom s in
  idxs = map (fun fp : hashfp_t => (fp s mod 2 ^ 32) mod m bloom) (hash bloom)
  /\ (forall i, In i idxs -> 0 <= i < 2 ^ 32 /\ i < m bloom)
  /\ (exists bloom',
        bloom_add bloom s = Ok bloom'
        /\ (forall i, In i idxs -> bit_at (a bloom') i = true)
        /\ (forall i, 0 <= i -> ~ In i idxs ->
              bit_at (a bloom') i = bit_at (a bloom) i)
        /\ (forall i, 2 ^ 32 <= i -> bit_at (a bloom') i = bit_at (a bloom) i))
  /\ (exists answer probes,
        bloom_check_traced bloom s = Ok (answer, probes)
        /\ bloom_check bloom s = Ok answer
        /\ probes `prefix_of` idxs
        /\ (forall i, In i probes -> 0 <= i < 2 ^ 32))
  /\ (forall other,
        bloom_wf other = true ->
        m other = m bloom -> hash other = hash bloom ->
        (forall i, 0 <= i < 2 ^ 32 -> bit_at (a other) i = bit_at (a bloom) i) ->
        bloom_check other s = bloom_check bloom s).
Proof.
  intros Hwf Hm idxs.
  assert (Hrange : forall i, In i idxs -> 0 <= i < 2 ^ 32 /\ i < m bloom).
  { intros i Hi. destruct (bloom_indices_range bloom s i) as [Hr Hu];
      [lia|exact Hi|]. unfold UINT_MAX in Hu. lia. }
  destruct (bloom_add_spec bloom s Hwf Hm)
    as (bloom' & Hadd & _ & _ & _ & _ & _ & Hbits).
  fold idxs in Hbits.
  assert (Hout : forall i, 0 <= i -> ~ In i idxs ->
                   bit_at (a bloom') i = bit_at (a bloom) i).
  { intros i Hi Hnot. rewrite Hbits by assumption.
    destruct (existsb (Z.eqb i) idxs) eqn:Hex.
    - apply existsb_eqb_In in Hex. contradiction.
    - apply orb_false_r. }
  split; [reflexivity|]. split; [exact Hrange|]. split; [|split].
  - exists bloom'. split; [assumption|]. split; [|split; [exact Hout|]].
    + intros i Hi. rewrite Hbits by (apply Hrange in Hi; lia).
      apply orb_true_iff. right. apply existsb_eqb_In. exact Hi.
    + intros i Hi. apply Hout; [lia|].
      intros Hin. apply Hrange in Hin. lia.
  - exists (forallb (bit_at (a bloom)) idxs), (examined (a bloom) idxs).
    split; [apply bloom_check_traced_spec; assumption|].
    split; [apply bloom_check_spec; assumption|].
    split; [apply examined_prefix|].
    intros i Hi. apply Hrange.
    destruct (examined_prefix (a bloom) idxs) as [rest Hrest].
    rewrite Hrest. apply in_or_app. left. exact Hi.
  - intros other Hwf' Hm' Hh' Hsame.
    rewrite !bloom_check_spec by (assumption || lia).
    rewrite (bloom_indices_same bloom other) by assumption. f_equal.
    apply forallb_agree. intros i Hi. apply Hsame.
    apply Hrange. exact Hi.
Qed.

Lemma hash_truncation_witness :
  bloom_wf sample_bloom = true /\ 1 <= m sample_bloom
  /\ djb2 "apple" = 210706734647
  /\ bloom_indices sample_bloom "apple" = [7; 10]
  /\ exists bloom',
       bloom_add sample_bloom "apple" = Ok bloom'
       /\ forall i, 2 ^ 32 <= i ->
            bit_at (a bloom') i = bit_at (a sample_bloom) i.
Proof.
  split; [reflexivity|]. split; [simpl; lia|].
  split; [reflexivity|]. split; [reflexivity|].
  destruct (hash_truncation sample_bloom "apple" eq_refl ltac:(simpl; lia))
    as (_ & _ & (bloom' & Hadd & _ & _ & Hhigh) & _).
  exists bloom'. split; assumption.
Defined.

End Truncation.

(** * Further properties of the code *)

(** ** The bit macros *)

Section MacroProperties.

Implicit Types (arr : list Z) (n i : Z).

Lemma land_pow2_set (byte p : Z) :
  0 <= p -> Z.testbit byte p = true -> Z.land byte (2 ^ p) = 2 ^ p.
Proof.
  intros Hp Hb. apply Z.bits_inj'. intros q Hq.
  rewrite Z.land_spec, Z.pow2_bits_eqb by lia.
  destruct (Z.eqb_spec p q) as [<-|]; [rewrite Hb; reflexivity|apply andb_false_r].
Qed.

Lemma land_setbit_other (byte p q : Z) :
  0 <= p -> 0 <= q < CHAR_BIT -> p <> q ->
  Z.land (to_uchar (Z.lor byte (Z.shiftl 1 p))) (Z.shiftl 1 q)
  = Z.land byte (Z.shiftl 1 q).
Proof.
  intros Hp Hq Hne. rewrite !Z.shiftl_1_l. unfold to_uchar.
  apply Z.bits_inj'. intros r Hr.
  rewrite !Z.land_spec, !Z.pow2_bits_eqb by lia.
  destruct (Z.eqb_spec q r) as [<-|]; [|rewrite !andb_false_r; reflexivity].
  rewrite Z.mod_pow2_bits_low, Z.lor_spec, Z.pow2_bits_eqb by lia.
  destruct (Z.eqb_spec p q); [contradiction|]. rewrite orb_false_r. reflexivity.
Qed.

Lemma load_defined {A : Type} (l : list A) i :
  (exists x, load l i = Ok x) <-> 0 <= i < Z.of_nat (length l).
Proof.
  unfold load. destruct (Z.ltb_spec i 0) as [Hneg|Hpos].
  - split; [intros [x Hx]; discriminate|lia].
  - destruct (l !! Z.to_nat i) as [x|] eqn:Hl.
    + apply lookup_lt_Some in Hl. split; [lia|eauto].
    + apply lookup_ge_None in Hl. split; [intros [x Hx]; discriminate|lia].
Qed.

Lemma byte_index_range arr n :
  0 <= n / CHAR_BIT < Z.of_nat (length arr)
  <-> 0 <= n < CHAR_BIT * Z.of_nat (length arr).
Proof.
  rewrite CHAR_BIT_eq.
  pose proof (Z.div_mod n 8 ltac:(lia)).
  pose proof (Z.mod_pos_bound n 8 ltac:(lia)). lia.
Qed.

(** X1 -- Setting a bit and reading it back: for an index inside the
    array, [SETBIT] stores an array of the same length in which [GETBIT]
    of that index is the non-zero mask [1 << (n % CHAR_BIT)], and
    [GETBIT] of every other index gives what it gave before. *)
Theorem SETBIT_GETBIT_roundtrip arr n :
  0 <= n < CHAR_BIT * Z.of_nat (length arr) ->
  exists arr',
    SETBIT arr n = Ok arr'
    /\ length arr' = length arr
    /\ GETBIT arr' n = Ok (2 ^ (n mod CHAR_BIT))
    /\ 2 ^ (n mod CHAR_BIT) <> 0
    /\ forall n', n' <> n -> GETBIT arr' n' = GETBIT arr n'.
Proof.
  intros Hn. destruct (lookup_byte arr n Hn) as [byte Hb].
  destruct (byte_in_range arr n Hn) as [Hd Hm].
  set (byte' := to_uchar (Z.lor byte (Z.shiftl 1 (n mod CHAR_BIT)))).
  assert (Hset : SETBIT arr n = Ok (<[Z.to_nat (n / CHAR_BIT) := byte']> arr)).
  { unfold SETBIT. rewrite (load_Some arr _ byte) by (lia || assumption).
    simpl. unfold store.
    destruct (Z.leb_spec 0 (n / CHAR_BIT)); [|lia].
    destruct (Z.ltb_spec (n / CHAR_BIT) (Z.of_nat (length arr))); [|lia].
    reflexivity. }
  exists (<[Z.to_nat (n / CHAR_BIT) := byte']> arr).
  split; [exact Hset|]. split; [apply length_insert|].
  split; [|split].
  - unfold GETBIT. rewrite (load_Some _ _ byte').
    + simpl. rewrite Z.shiftl_1_l. f_equal. apply land_pow2_set; [lia|].
      unfold byte'. rewrite setbit_testbit by lia.
      rewrite Z.eqb_refl. apply orb_true_r.
    + lia.
    + apply list_lookup_insert_eq. lia.
  - apply Z.pow_nonzero; lia.
  - intros n' Hne. unfold GETBIT, load.
    destruct (Z.ltb_spec (n' / CHAR_BIT) 0) as [|Hpos]; [reflexivity|].
    destruct (Z.eq_dec (n' / CHAR_BIT) (n / CHAR_BIT)) as [Heq|Hdiff].
    + rewrite Heq, list_lookup_insert_eq, Hb by lia. simpl. f_equal.
      unfold byte'. apply land_setbit_other; [lia| |].
      * apply Z.mod_pos_bound. reflexivity.
      * intros Hmod. apply Hne.
        apply Z.eqb_eq. rewrite index_split, Heq, <- Hmod, !Z.eqb_refl.
        reflexivity.
    + rewrite list_lookup_insert_ne by lia. reflexivity.
Qed.

Lemma SETBIT_GETBIT_roundtrip_witness :
  0 <= 10 < CHAR_BIT * Z.of_nat (length [0; 1])
  /\ exists arr',
       SETBIT [0; 1] 10 = Ok arr'
       /\ arr' = [0; 5]
       /\ GETBIT arr' 10 = Ok 4
       /\ GETBIT arr' 8 = GETBIT [0; 1] 8.
Proof.
  split; [rewrite CHAR_BIT_eq; simpl; lia|].
  destruct (SETBIT_GETBIT_roundtrip [0; 1] 10
              ltac:(rewrite CHAR_BIT_eq; simpl; lia))
    as (arr' & Hset & _ & Hget & _ & Hother).
  exists arr'. split; [exact Hset|].
  split; [vm_compute in Hset; congruence|].
  split; [exact Hget|]. apply Hother. lia.
Defined.

(** X2 -- Bounds of the macros: [GETBIT] and [SETBIT] are defined
    exactly for the bit indices from 0 to [CHAR_BIT * length - 1]; any
    other index is an access outside the array. *)
Theorem bit_macros_bounds arr n :
  ((exists v, GETBIT arr n = Ok v)
   <-> 0 <= n < CHAR_BIT * Z.of_nat (length arr))
  /\ ((exists arr', SETBIT arr n = Ok arr')
      <-> 0 <= n < CHAR_BIT * Z.of_nat (length arr))
  /\ (GETBIT arr n = Undefined <-> SETBIT arr n = Undefined).
Proof.
  assert (Hget : (exists v, GETBIT arr n = Ok v)
                 <-> 0 <= n < CHAR_BIT * Z.of_nat (length arr)).
  { rewrite <- byte_index_range, <- (load_defined arr). unfold GETBIT.
    destruct (load arr (n / CHAR_BIT)) as [byte|]; simpl.
    - split; eauto.
    - split; intros [x Hx]; discriminate. }
  assert (Hset : (exists arr', SETBIT arr n = Ok arr')
                 <-> 0 <= n < CHAR_BIT * Z.of_nat (length arr)).
  { split.
    - intros [arr' Hs]. apply byte_index_range, (load_defined arr).
      unfold SETBIT in Hs.
      destruct (load arr (n / CHAR_BIT)) as [byte|]; [eauto|discriminate].
    - intros Hn. destruct (SETBIT_spec arr n Hn) as (arr' & Hs & _). eauto. }
  split; [exact Hget|]. split; [exact Hset|].
  destruct (GETBIT arr n) as [v|] eqn:Hg, (SETBIT arr n) as [arr'|] eqn:Hs;
    split; try discriminate; try reflexivity; intros _; exfalso.
  - assert (exists v, GETBIT arr n = Ok v) as Hd by eauto.
    rewrite Hg in Hd. apply Hget, Hset in Hd. destruct Hd; discriminate.
  - assert (exists arr', SETBIT arr n = Ok arr') as Hd by eauto.
    rewrite Hs in Hd. apply Hset, Hget in Hd. destruct Hd; discriminate.
Qed.

(** X3 -- [ROUND]: for a size up to [SIZE_MAX - (CHAR_BIT - 1)] it is
    the least number of bytes that hold [size] bits; for the larger
    sizes of [size_t] the sum wraps around and it is 0. *)
Theorem ROUND_least_cover (size : Z) :
  0 <= size <= SIZE_MAX ->
  (size <= SIZE_MAX - (CHAR_BIT - 1) ->
   size <= CHAR_BIT * ROUND size < size + CHAR_BIT)
  /\ (SIZE_MAX - (CHAR_BIT - 1) < size -> ROUND size = 0).
Proof.
  intros Hsize. split.
  - intros Hmax. rewrite ROUND_no_wrap by lia. rewrite CHAR_BIT_eq in *.
    pose proof (Z.div_mod (size + (8 - 1)) 8 ltac:(lia)).
    pose proof (Z.mod_pos_bound (size + (8 - 1)) 8 ltac:(lia)). lia.
  - intros Hbig. unfold ROUND, to_size_t. rewrite Zminus_mod_idemp_l.
    rewrite CHAR_BIT_eq in *. unfold SIZE_MAX in *.
    replace (size + 8 - 1) with ((size + 7 - 2 ^ 64) + 1 * (2 ^ 64 - 1 + 1)) by lia.
    rewrite Z.mod_add by lia. rewrite Z.mod_small by lia.
    apply Z.div_small. lia.
Qed.

Lemma ROUND_least_cover_witness :
  0 <= 1021 <= SIZE_MAX
  /\ 1021 <= SIZE_MAX - (CHAR_BIT - 1)
  /\ ROUND 1021 = 128
  /\ 1021 <= CHAR_BIT * ROUND 1021 < 1021 + CHAR_BIT.
Proof.
  assert (H1 : 0 <= 1021 <= SIZE_MAX) by (unfold SIZE_MAX; lia).
  assert (H2 : 1021 <= SIZE_MAX - (CHAR_BIT - 1))
    by (rewrite CHAR_BIT_eq; unfold SIZE_MAX; lia).
  split; [exact H1|]. split; [exact H2|]. split; [reflexivity|].
  exact (proj1 (ROUND_least_cover 1021 H1) H2).
Defined.

End MacroProperties.

(** ** Outcomes of [bloom_new] *)

Section NewOutcomes.

Implicit Types (heap : allocator) (size num_hashes : Z) (bloom : bloom_t).

Lemma hash_slots_small num_hashes :
  0 <= num_hashes <= INT_MAX -> hash_slots num_hashes = num_hashes.
Proof.
  intros Hk. unfold hash_slots, to_size_t, sizeof_hashfp_t.
  unfold INT_MAX, SIZE_MAX in *.
  rewrite Z.mod_small by lia. apply Z.div_mul. lia.
Qed.

Lemma bloom_new_loop_ok (iters : nat) : forall n slots (ap tbl : list hashfp_t),
  0 <= n -> n + Z.of_nat iters <= slots -> n + Z.of_nat iters <= INT_MAX ->
  (iters <= length ap)%nat ->
  bloom_new_loop iters n slots ap tbl = Ok (tbl ++ take iters ap).
Proof.
  induction iters as [|iters IH]; intros n slots ap tbl Hn Hslots Hmax Hlen.
  - simpl. rewrite take_0, app_nil_r. reflexivity.
  - destruct ap as [|fp ap]; [simpl in Hlen; lia|].
    cbn [bloom_new_loop]. destruct (Z.ltb_spec n slots); [|lia].
    rewrite int_incr_lt by lia. cbn [bind].
    rewrite IH by (simpl in Hlen; lia).
    rewrite <- app_assoc. reflexivity.
Qed.

Lemma bloom_new_loop_short (iters : nat) : forall n slots (ap tbl : list hashfp_t),
  0 <= n -> n + Z.of_nat iters <= slots -> n + Z.of_nat iters <= INT_MAX ->
  (length ap < iters)%nat ->
  bloom_new_loop iters n slots ap tbl = Undefined.
Proof.
  induction iters as [|iters IH]; intros n slots ap tbl Hn Hslots Hmax Hlen;
    [lia|].
  destruct ap as [|fp ap]; [reflexivity|].
  cbn [bloom_new_loop]. destruct (Z.ltb_spec n slots); [|lia].
  rewrite int_incr_lt by lia. cbn [bind].
  apply IH; simpl in Hlen; lia.
Qed.

Lemma bloom_new_filter heap size num_hashes (hashes : list hashfp_t) :
  malloc_bloom heap && calloc_a heap && malloc_hash heap = true ->
  0 <= num_hashes <= INT_MAX ->
  num_hashes <= Z.of_nat (length hashes) ->
  bloom_new heap size num_hashes hashes
  = Ok (Some {| m := size; k := num_hashes;
                a := replicate (Z.to_nat (ROUND size)) 0;
                hash := take (Z.to_nat num_hashes) hashes |}).
Proof.
  intros Hheap Hk Hargs.
  apply andb_true_iff in Hheap. destruct Hheap as [Hheap Hh].
  apply andb_true_iff in Hheap. destruct Hheap as [Hb Ha].
  unfold bloom_new. rewrite Hb, Ha, Hh. cbn [negb].
  rewrite bloom_new_loop_ok; [reflexivity|lia| |lia|lia].
  rewrite hash_slots_small by assumption. lia.
Qed.

(** X4 -- A call of [bloom_new] whose three allocations succeed and that
    is passed at least [num_hashes] hash functions returns a filter with
    [m = size], [k = num_hashes], [ROUND(size)] zero bytes and a table
    holding the first [num_hashes] arguments in the order they were
    passed; arguments beyond [num_hashes] are not read. *)
Theorem bloom_new_success heap size num_hashes (hashes : list hashfp_t) :
  malloc_bloom heap && calloc_a heap && malloc_hash heap = true ->
  0 <= num_hashes <= INT_MAX ->
  num_hashes <= Z.of_nat (length hashes) ->
  bloom_new heap size num_hashes hashes
  = Ok (Some {| m := size; k := num_hashes;
                a := replicate (Z.to_nat (ROUND size)) 0;
                hash := take (Z.to_nat num_hashes) hashes |})
  /\ (forall (j : nat) (fp : hashfp_t),
        take (Z.to_nat num_hashes) hashes !! j = Some fp
        <-> Z.of_nat j < num_hashes /\ hashes !! j = Some fp).
Proof.
  intros Hheap Hk Hargs. split.
  - apply bloom_new_filter; assumption.
  - intros j fp. rewrite lookup_take_Some. split; intros [H1 H2]; split;
      (assumption || lia).
Qed.

Lemma bloom_new_success_witness :
  malloc_bloom heap_ok && calloc_a heap_ok && malloc_hash heap_ok = true
  /\ 0 <= 1 <= INT_MAX
  /\ 1 <= Z.of_nat (length [djb2; sdbm])
  /\ bloom_new heap_ok 20 1 [djb2; sdbm]
     = Ok (Some {| m := 20; k := 1; a := [0; 0; 0]; hash := [djb2] |}).
Proof.
  assert (H2 : 0 <= 1 <= INT_MAX) by (unfold INT_MAX; lia).
  assert (H3 : 1 <= Z.of_nat (length [djb2; sdbm])) by (simpl; lia).
  split; [reflexivity|]. split; [exact H2|]. split; [exact H3|].
  exact (proj1 (bloom_new_success heap_ok 20 1 [djb2; sdbm] eq_refl H2 H3)).
Defined.

(** X5 -- The three outcomes of [bloom_new] for [num_hashes] up to
    [INT_MAX]: it returns [NULL] exactly when one of its allocations
    fails (whatever the arguments), it returns a filter exactly when they
    all succeed and at least [num_hashes] hash functions were passed, and
    its behaviour is undefined exactly when they all succeed and fewer
    were passed, [va_arg] then reading an argument that is not there. *)
Theorem bloom_new_outcomes heap size num_hashes (hashes : list hashfp_t) :
  0 <= num_hashes <= INT_MAX ->
  let all_ok := malloc_bloom heap && calloc_a heap && malloc_hash heap in
  (bloom_new heap size num_hashes hashes = Ok None <-> all_ok = false)
  /\ ((exists bloom, bloom_new heap size num_hashes hashes = Ok (Some bloom))
      <-> all_ok = true /\ num_hashes <= Z.of_nat (length hashes))
  /\ (bloom_new heap size num_hashes hashes = Undefined
      <-> all_ok = true /\ Z.of_nat (length hashes) < num_hashes).
Proof.
  intros Hk all_ok. subst all_ok.
  destruct (malloc_bloom heap && calloc_a heap && malloc_hash heap) eqn:Hheap.
  - destruct (Z_le_gt_dec num_hashes (Z.of_nat (length hashes))) as [Hargs|Hargs].
    + rewrite (bloom_new_filter heap size num_hashes hashes Hheap Hk Hargs).
      split; [split; discriminate|].
      split; [split; eauto|].
      split; [discriminate|lia].
    + assert (Hundef : bloom_new heap size num_hashes hashes = Undefined).
      { apply andb_true_iff in Hheap. destruct Hheap as [Hheap Hh].
        apply andb_true_iff in Hheap. destruct Hheap as [Hb Ha].
        unfold bloom_new. rewrite Hb, Ha, Hh. cbn [negb].
        rewrite bloom_new_loop_short; [reflexivity|lia| |lia|lia].
        rewrite hash_slots_small by assumption. lia. }
      rewrite Hundef.
      split; [split; discriminate|].
      split; [split; [intros [b Hb]; discriminate|lia]|].
      split; [intros _; split; [reflexivity|lia]|reflexivity].
  - assert (Hnull : bloom_new heap size num_hashes hashes = Ok None).
    { unfold bloom_new.
      destruct (malloc_bloom heap), (calloc_a heap), (malloc_hash heap);
        try discriminate; reflexivity. }
    rewrite Hnull.
    split; [split; reflexivity|].
    split; [split; [intros [b Hb]; discriminate|intros [? _]; discriminate]|].
    split; [discriminate|intros [? _]; discriminate].
Qed.

Lemma bloom_new_outcomes_witness :
  0 <= 2 <= INT_MAX
  /\ bloom_new {| malloc_bloom := true; calloc_a := false; malloc_hash := true |}
       16 2 [djb2] = Ok None
  /\ bloom_new heap_ok 16 2 [djb2] = Undefined
  /\ exists bloom, bloom_new heap_ok 16 2 [djb2; sdbm] = Ok (Some bloom).
Proof.
  assert (H : 0 <= 2 <= INT_MAX) by (unfold INT_MAX; lia).
  split; [exact H|].
  split; [|split].
  - apply (bloom_new_outcomes
             {| malloc_bloom := true; calloc_a := false; malloc_hash := true |}
             16 2 [djb2] H). reflexivity.
  - apply (bloom_new_outcomes heap_ok 16 2 [djb2] H).
    split; [reflexivity|simpl; lia].
  - apply (bloom_new_outcomes heap_ok 16 2 [djb2; sdbm] H).
    split; [reflexivity|simpl; lia].
Defined.

(** X6 -- [bloom_new] accepts [size = 0]: it returns a filter with
    [m = 0] and an array of no bytes, and with at least one hash
    function every [bloom_add] and [bloom_check] on that filter divides
    by zero in [hash % bloom->m]. *)
Theorem zero_size_divides heap num_hashes (hashes : list hashfp_t) bloom
    (s : string) :
  1 <= num_hashes ->
  bloom_new heap 0 num_hashes hashes = Ok (Some bloom) ->
  m bloom = 0 /\ a bloom = []
  /\ bloom_add bloom s = Undefined
  /\ bloom_check bloom s = Undefined.
Proof.
  intros Hk Hnew.
  destruct (bloom_new_Some heap 0 num_hashes hashes bloom) as (Heq & Hlen & _);
    [lia|assumption|].
  assert (Hm : m bloom = 0) by (subst; reflexivity).
  assert (Ha : a bloom = []) by (subst; reflexivity).
  assert (Hkk : k bloom = num_hashes) by (subst; reflexivity).
  split; [exact Hm|]. split; [exact Ha|].
  destruct (hash bloom) as [|fp tbl] eqn:Hh; [simpl in Hlen; lia|].
  unfold bloom_add, bloom_check.
  destruct (Z.to_nat (k bloom)) as [|iters] eqn:Hn; [lia|].
  cbn [bloom_add_loop bloom_check_loop]. rewrite Hh, Hm.
  change (load (fp :: tbl) 0) with (Ok fp). cbn [bind].
  split; reflexivity.
Qed.

Lemma zero_size_divides_witness :
  1 <= 2
  /\ bloom_new heap_ok 0 2 [djb2; sdbm]
     = Ok (Some {| m := 0; k := 2; a := []; hash := [djb2; sdbm] |})
  /\ bloom_add {| m := 0; k := 2; a := []; hash := [djb2; sdbm] |} "apple"
     = Undefined
  /\ bloom_check {| m := 0; k := 2; a := []; hash := [djb2; sdbm] |} "apple"
     = Undefined.
Proof.
  split; [lia|]. split; [reflexivity|].
  apply (zero_size_divides heap_ok 2 [djb2; sdbm]
           {| m := 0; k := 2; a := []; hash := [djb2; sdbm] |} "apple");
    [lia|reflexivity].
Defined.

End NewOutcomes.

(** ** A filter over its lifetime *)

Section Lifetime.

Implicit Types (heap : allocator) (size num_hashes : Z) (bloom : bloom_t)
  (s x : string) (i : Z).

Lemma existsb_app_eqb i (l1 l2 : list Z) :
  existsb (Z.eqb i) (l1 ++ l2) = existsb (Z.eqb i) l1 || existsb (Z.eqb i) l2.
Proof. apply existsb_app. Qed.

(** The bits of a filter after a sequence of [bloom_add] calls. *)
Lemma bloom_add_all_spec (keys : list string) : forall bloom,
  bloom_wf bloom = true -> 1 <= m bloom ->
  exists bloom',
    bloom_add_all bloom keys = Ok bloom'
    /\ m bloom' = m bloom /\ k bloom' = k bloom /\ hash bloom' = hash bloom
    /\ length (a bloom') = length (a bloom)
    /\ bloom_wf bloom' = true
    /\ forall i, 0 <= i ->
         bit_at (a bloom') i
         = bit_at (a bloom) i
           || existsb (Z.eqb i) (concat (map (bloom_indices bloom) keys)).
Proof.
  induction keys as [|s keys IH]; intros bloom Hwf Hm.
  - exists bloom. repeat split; auto.
    intros i _. simpl. rewrite orb_false_r. reflexivity.
  - destruct (bloom_add_spec bloom s Hwf Hm)
      as (b1 & Hadd & Hm1 & Hk1 & Hh1 & Hlen1 & Hwf1 & Hbits1).
    destruct (IH b1 Hwf1 ltac:(lia))
      as (b2 & Hall & Hm2 & Hk2 & Hh2 & Hlen2 & Hwf2 & Hbits2).
    exists b2. repeat split; try congruence.
    + simpl. rewrite Hadd. exact Hall.
    + intros i Hi. rewrite Hbits2, Hbits1 by assumption. simpl.
      rewrite existsb_app_eqb, orb_assoc. do 2 f_equal.
      clear -Hm1 Hh1. induction keys as [|key keys IHk]; [reflexivity|].
      simpl. rewrite (bloom_indices_same bloom b1) by assumption.
      rewrite IHk. reflexivity.
Qed.

Lemma In_concat_indices bloom (keys : list string) i :
  In i (concat (map (bloom_indices bloom) keys))
  <-> exists key, In key keys /\ In i (bloom_indices bloom key).
Proof.
  rewrite in_concat. split.
  - intros (l & Hl & Hi). apply in_map_iff in Hl.
    destruct Hl as (key & <- & Hkey). eauto.
  - intros (key & Hkey & Hi). exists (bloom_indices bloom key).
    split; [apply in_map; assumption|assumption].
Qed.

Lemma run_shape (calls : list call) : forall bloom,
  bloom_wf bloom = true -> 1 <= m bloom ->
  exists bloom' answers,
    run bloom calls = Ok (bloom', answers)
    /\ extends bloom' bloom
    /\ length (a bloom') = length (a bloom)
    /\ length answers = checks calls.
Proof.
  induction calls as [|[s|s] calls IH]; intros bloom Hwf Hm.
  - exists bloom, []. repeat split; auto.
  - destruct (bloom_add_spec bloom s Hwf Hm)
      as (b1 & Hadd & Hm1 & Hk1 & Hh1 & Hlen1 & Hwf1 & Hbits1).
    destruct (bloom_add_extends bloom s Hwf Hm) as (b1' & Hadd' & Hext).
    rewrite Hadd in Hadd'. injection Hadd' as <-.
    destruct (IH b1 Hwf1 ltac:(lia)) as (b2 & answers & Hrun & Hext2 & Hlen2 & Hans).
    exists b2, answers. split; [simpl; rewrite Hadd; exact Hrun|].
    split; [eapply extends_trans; eassumption|]. split; [congruence|exact Hans].
  - destruct (IH bloom Hwf Hm) as (b2 & answers & Hrun & Hext2 & Hlen2 & Hans).
    exists b2, (forallb (bit_at (a bloom)) (bloom_indices bloom s) :: answers).
    split; [|split; [assumption|split; [assumption|simpl; congruence]]].
    simpl. rewrite bloom_check_spec by assumption. simpl.
    rewrite Hrun. reflexivity.
Qed.

(** X7 -- No client of a properly constructed filter reaches undefined
    behaviour: after a successful [bloom_new] with a size from 1 to
    [SIZE_MAX - (CHAR_BIT - 1)], every sequence of [bloom_add] and
    [bloom_check] calls runs to completion with one answer per
    [bloom_check], and the filter keeps its [m], its [k], its table and
    the [ROUND(size)] bytes of its array throughout. *)
Theorem client_safety heap size num_hashes (hashes : list hashfp_t) bloom
    (calls : list call) :
  1 <= size <= SIZE_MAX - (CHAR_BIT - 1) -> 0 <= num_hashes ->
  bloom_new heap size num_hashes hashes = Ok (Some bloom) ->
  exists bloom' answers,
    run bloom calls = Ok (bloom', answers)
    /\ length answers = checks calls
    /\ m bloom' = size /\ k bloom' = num_hashes
    /\ hash bloom' = take (Z.to_nat num_hashes) hashes
    /\ Z.of_nat (length (a bloom')) = ROUND size
    /\ bloom_wf bloom' = true.
Proof.
  intros Hsize Hk Hnew.
  destruct (bloom_new_wf heap size num_hashes hashes bloom)
    as (Hwf & Hm & Hkk & Hh & _); try (assumption || lia).
  destruct (bloom_new_Some heap size num_hashes hashes bloom Hk Hnew)
    as (Heq & _).
  destruct (run_shape calls bloom Hwf ltac:(lia))
    as (bloom' & answers & Hrun & (Hm' & Hk' & Hh' & Hwf' & _) & Hlen & Hans).
  exists bloom', answers. repeat split; try congruence.
  rewrite Hlen, Heq. simpl.
  rewrite length_replicate, Z2Nat.id by apply ROUND_nonneg. reflexivity.
Qed.

Lemma client_safety_witness :
  1 <= 16 <= SIZE_MAX - (CHAR_BIT - 1) /\ 0 <= 2
  /\ exists bloom bloom' answers,
       bloom_new heap_ok 16 2 [djb2; sdbm] = Ok (Some bloom)
       /\ run bloom [Check "apple"; Add "apple"; Check "apple"; Check "pear"]
          = Ok (bloom', answers)
       /\ length answers = 3%nat
       /\ Z.of_nat (length (a bloom')) = 2.
Proof.
  assert (H1 : 1 <= 16 <= SIZE_MAX - (CHAR_BIT - 1))
    by (rewrite CHAR_BIT_eq; unfold SIZE_MAX; lia).
  split; [exact H1|]. split; [lia|].
  exists {| m := 16; k := 2; a := [0; 0]; hash := [djb2; sdbm] |}.
  destruct (client_safety heap_ok 16 2 [djb2; sdbm]
              {| m := 16; k := 2; a := [0; 0]; hash := [djb2; sdbm] |}
              [Check "apple"; Add "apple"; Check "apple"; Check "pear"]
              H1 ltac:(lia) eq_refl)
    as (bloom' & answers & Hrun & Hans & _ & _ & _ & Hlen & _).
  exists bloom', answers.
  split; [reflexivity|]. split; [exact Hrun|]. split; assumption.
Defined.

(** X8 -- The bits of a filter: after a successful [bloom_new] (size
    from 1 to [SIZE_MAX - (CHAR_BIT - 1)]) and [bloom_add] of the keys
    [keys], a bit is set exactly when it is the index of one of the keys
    under one of the hash functions.  Every such index is below [m], so
    the spare bits of the last byte stay clear, and there are at most
    [length keys * k] of them. *)
Theorem filter_bits heap size num_hashes (hashes : list hashfp_t) bloom
    (keys : list string) :
  1 <= size <= SIZE_MAX - (CHAR_BIT - 1) -> 0 <= num_hashes ->
  bloom_new heap size num_hashes hashes = Ok (Some bloom) ->
  let idxs := concat (map (bloom_indices bloom) keys) in
  exists bloom',
    bloom_add_all bloom keys = Ok bloom'
    /\ (forall i, 0 <= i ->
          (bit_at (a bloom') i = true
           <-> exists key, In key keys /\ In i (bloom_indices bloom key)))
    /\ (forall i, 0 <= i -> bit_at (a bloom') i = true <-> In i idxs)
    /\ (forall i, size <= i -> bit_at (a bloom') i = false)
    /\ length idxs = (length keys * Z.to_nat num_hashes)%nat.
Proof.
  intros Hsize Hk Hnew idxs.
  destruct (bloom_new_wf heap size num_hashes hashes bloom)
    as (Hwf & Hm & Hkk & Hh & Hclear); try (assumption || lia).
  destruct (bloom_add_all_spec keys bloom Hwf ltac:(lia))
    as (bloom' & Hall & _ & _ & _ & _ & _ & Hbits).
  fold idxs in Hbits.
  assert (Hset : forall i, 0 <= i -> bit_at (a bloom') i = true <-> In i idxs).
  { intros i Hi. rewrite Hbits, Hclear by assumption. simpl.
    apply existsb_eqb_In. }
  exists bloom'. split; [exact Hall|]. split; [|split; [exact Hset|split]].
  - intros i Hi. rewrite Hset by assumption. apply In_concat_indices.
  - intros i Hi. destruct (bit_at (a bloom') i) eqn:Hb; [|reflexivity].
    apply Hset in Hb; [|lia]. apply In_concat_indices in Hb.
    destruct Hb as (key & _ & Hin).
    apply bloom_indices_range in Hin; lia.
  - destruct (bloom_new_Some heap size num_hashes hashes bloom Hk Hnew)
      as (_ & Hlen & _).
    assert (Htbl : length (hash bloom) = Z.to_nat num_hashes) by lia.
    subst idxs. clear -Htbl.
    induction keys as [|key keys IH]; [reflexivity|].
    simpl. rewrite length_app, IH. unfold bloom_indices at 1.
    rewrite length_map, Htbl. reflexivity.
Qed.

End Lifetime.

(** ** What the answers mean *)

Section Answers.

Implicit Types (heap : allocator) (size num_hashes : Z) (bloom : bloom_t)
  (s x : string) (i : Z).

Lemma filter_bits_witness :
  1 <= 16 <= SIZE_MAX - (CHAR_BIT - 1) /\ 0 <= 2
  /\ exists bloom bloom',
       bloom_new heap_ok 16 2 [djb2; sdbm] = Ok (Some bloom)
       /\ bloom_add_all bloom ["apple"; "banana"] = Ok bloom'
       /\ a bloom' = [224; 4]
       /\ forall i, 16 <= i -> bit_at (a bloom') i = false.
Proof.
  assert (H1 : 1 <= 16 <= SIZE_MAX - (CHAR_BIT - 1))
    by (rewrite CHAR_BIT_eq; unfold SIZE_MAX; lia).
  split; [exact H1|]. split; [lia|].
  exists {| m := 16; k := 2; a := [0; 0]; hash := [djb2; sdbm] |}.
  destruct (filter_bits heap_ok 16 2 [djb2; sdbm]
              {| m := 16; k := 2; a := [0; 0]; hash := [djb2; sdbm] |}
              ["apple"; "banana"] H1 ltac:(lia) eq_refl)
    as (bloom' & Hall & _ & _ & Hhigh & _).
  exists bloom'. split; [reflexivity|]. split; [exact Hall|].
  split; [|exact Hhigh].
  vm_compute in Hall. injection Hall as <-. reflexivity.
Defined.

(** X9 -- What an answer means: after a successful [bloom_new] (size
    from 1 to [SIZE_MAX - (CHAR_BIT - 1)]) and [bloom_add] of the keys
    [keys], [bloom_check] of a key [x] is defined; it answers true
    exactly when each index of [x] is also an index of some added key;
    so an answer of false shows that [x] was not added, and an answer of
    true for a key that was not added means its indices are all covered
    by added keys. *)
Theorem answer_meaning heap size num_hashes (hashes : list hashfp_t) bloom
    (keys : list string) (x : string) :
  1 <= size <= SIZE_MAX - (CHAR_BIT - 1) -> 0 <= num_hashes ->
  bloom_new heap size num_hashes hashes = Ok (Some bloom) ->
  exists bloom' answer,
    bloom_add_all bloom keys = Ok bloom'
    /\ bloom_check bloom' x = Ok answer
    /\ (answer = true
        <-> forall i, In i (bloom_indices bloom x) ->
              exists key, In key keys /\ In i (bloom_indices bloom key))
    /\ (answer = false -> ~ In x keys)
    /\ (In x keys -> answer = true).
Proof.
  intros Hsize Hk Hnew.
  destruct (bloom_new_wf heap size num_hashes hashes bloom)
    as (Hwf & Hm & Hkk & Hh & Hclear); try (assumption || lia).
  destruct (bloom_add_all_spec keys bloom Hwf ltac:(lia))
    as (bloom' & Hall & Hm' & _ & Hh' & _ & Hwf' & Hbits).
  exists bloom', (forallb (bit_at (a bloom')) (bloom_indices bloom x)).
  assert (Hiff : forallb (bit_at (a bloom')) (bloom_indices bloom x) = true
                 <-> forall i, In i (bloom_indices bloom x) ->
                       exists key, In key keys /\ In i (bloom_indices bloom key)).
  { rewrite forallb_forall. split; intros Hall' i Hi.
    - apply In_concat_indices, existsb_eqb_In.
      specialize (Hall' i Hi).
      destruct (bloom_indices_range bloom x i) as [Hr _]; [lia|exact Hi|].
      rewrite Hbits, Hclear in Hall' by lia. exact Hall'.
    - destruct (bloom_indices_range bloom x i) as [Hr _]; [lia|exact Hi|].
      rewrite Hbits, Hclear by lia. simpl.
      apply existsb_eqb_In, In_concat_indices. auto. }
  assert (Hin : In x keys ->
                forallb (bit_at (a bloom')) (bloom_indices bloom x) = true).
  { intros Hx. apply Hiff. intros i Hi. eauto. }
  split; [exact Hall|]. split.
  { rewrite bloom_check_spec by (assumption || lia).
    rewrite (bloom_indices_same bloom bloom') by assumption. reflexivity. }
  split; [exact Hiff|]. split; [|exact Hin].
  intros Hfalse Hx. rewrite (Hin Hx) in Hfalse. discriminate.
Qed.

Lemma answer_meaning_witness :
  1 <= 16 <= SIZE_MAX - (CHAR_BIT - 1) /\ 0 <= 2
  /\ exists bloom bloom',
       bloom_new heap_ok 16 2 [djb2; sdbm] = Ok (Some bloom)
       /\ bloom_add_all bloom ["apple"; "banana"] = Ok bloom'
       /\ bloom_check bloom' "cherry" = Ok false
       /\ ~ In "cherry" ["apple"; "banana"].
Proof.
  assert (H1 : 1 <= 16 <= SIZE_MAX - (CHAR_BIT - 1))
    by (rewrite CHAR_BIT_eq; unfold SIZE_MAX; lia).
  split; [exact H1|]. split; [lia|].
  exists {| m := 16; k := 2; a := [0; 0]; hash := [djb2; sdbm] |}.
  destruct (answer_meaning heap_ok 16 2 [djb2; sdbm]
              {| m := 16; k := 2; a := [0; 0]; hash := [djb2; sdbm] |}
              ["apple"; "banana"] "cherry" H1 ltac:(lia) eq_refl)
    as (bloom' & answer & Hall & Hchk & _ & Hneg & _).
  exists bloom'. split; [reflexivity|]. split; [exact Hall|].
  assert (Hans : answer = false).
  { vm_compute in Hall. injection Hall as <-.
    vm_compute in Hchk. congruence. }
  split; [rewrite Hchk, Hans; reflexivity|]. apply Hneg. exact Hans.
Defined.

(** X10 -- The filter depends only on the set of added keys: two
    sequences of [bloom_add] calls on the same filter whose keys are the
    same up to order and repetition return the same filter. *)
Theorem bloom_add_all_set bloom (keys1 keys2 : list string) :
  bloom_wf bloom = true -> 1 <= m bloom ->
  (forall x, In x keys1 <-> In x keys2) ->
  exists bloom',
    bloom_add_all bloom keys1 = Ok bloom'
    /\ bloom_add_all bloom keys2 = Ok bloom'.
Proof.
  intros Hwf Hm Hsame.
  destruct (bloom_add_all_spec keys1 bloom Hwf Hm)
    as (b1 & Hall1 & Hm1 & Hk1 & Hh1 & Hlen1 & Hwf1 & Hbits1).
  destruct (bloom_add_all_spec keys2 bloom Hwf Hm)
    as (b2 & Hall2 & Hm2 & Hk2 & Hh2 & Hlen2 & Hwf2 & Hbits2).
  exists b1. split; [exact Hall1|]. rewrite Hall2. f_equal.
  destruct (bloom_wf_elim b1 Hwf1) as (_ & Huc1 & _).
  destruct (bloom_wf_elim b2 Hwf2) as (_ & Huc2 & _).
  assert (Ha : a b2 = a b1).
  { apply array_ext; try congruence.
    intros i Hi. rewrite Hbits1, Hbits2 by assumption. f_equal.
    apply eq_true_iff_eq. rewrite !existsb_eqb_In, !In_concat_indices.
    split; intros (key & Hkey & Hin); exists key; split;
      (assumption || apply Hsame; assumption). }
  destruct b1, b2. simpl in *. congruence.
Qed.

Lemma bloom_add_all_set_witness :
  bloom_wf sample_bloom = true /\ 1 <= m sample_bloom
  /\ (forall x, In x ["apple"; "banana"; "apple"] <-> In x ["banana"; "apple"])
  /\ exists bloom',
       bloom_add_all sample_bloom ["apple"; "banana"; "apple"] = Ok bloom'
       /\ bloom_add_all sample_bloom ["banana"; "apple"] = Ok bloom'.
Proof.
  assert (Hsame : forall x : string,
             In x ["apple"; "banana"; "apple"] <-> In x ["banana"; "apple"])
    by (intros x; simpl; tauto).
  split; [reflexivity|]. split; [simpl; lia|]. split; [exact Hsame|].
  apply (bloom_add_all_set sample_bloom); [reflexivity|simpl; lia|exact Hsame].
Defined.

(** X11 -- [bloom_add] of a key returns the filter unchanged exactly
    when [bloom_check] already answers true for that key. *)
Theorem bloom_add_noop_iff_check bloom x :
  bloom_wf bloom = true -> 1 <= m bloom ->
  (bloom_add bloom x = Ok bloom <-> bloom_check bloom x = Ok true).
Proof.
  intros Hwf Hm. rewrite bloom_check_spec by assumption. split.
  - intros Hadd. f_equal. apply (bloom_add_sets bloom bloom x); assumption.
  - intros Hchk. injection Hchk as Hall.
    apply bloom_add_absorb; assumption.
Qed.

Lemma bloom_add_noop_iff_check_witness :
  bloom_wf {| m := 16; k := 2; a := [128; 4]; hash := [djb2; sdbm] |} = true
  /\ 1 <= 16
  /\ bloom_check {| m := 16; k := 2; a := [128; 4]; hash := [djb2; sdbm] |}
       "apple" = Ok true
  /\ bloom_add {| m := 16; k := 2; a := [128; 4]; hash := [djb2; sdbm] |}
       "apple"
     = Ok {| m := 16; k := 2; a := [128; 4]; hash := [djb2; sdbm] |}.
Proof.
  split; [reflexivity|]. split; [lia|]. split; [reflexivity|].
  apply (bloom_add_noop_iff_check
           {| m := 16; k := 2; a := [128; 4]; hash := [djb2; sdbm] |} "apple");
    [reflexivity|simpl; lia|reflexivity].
Defined.

Lemma saturated_spec bloom :
  saturated bloom = true
  <-> forall i, 0 <= i < m bloom -> bit_at (a bloom) i = true.
Proof.
  unfold saturated. rewrite forallb_forall. split.
  - intros Hall i Hi. apply Hall. apply in_map_iff.
    exists (Z.to_nat i). split; [lia|]. apply in_seq. lia.
  - intros Hall i Hi. apply in_map_iff in Hi.
    destruct Hi as (j & <- & Hj). apply in_seq in Hj. apply Hall. lia.
Qed.

(** X12 -- A full filter says yes to everything: when every bit below
    [m] is set, [bloom_check] answers true for every key and
    [bloom_add] of any key changes nothing. *)
Theorem saturated_answers_true bloom x :
  bloom_wf bloom = true -> 1 <= m bloom -> saturated bloom = true ->
  bloom_check bloom x = Ok true /\ bloom_add bloom x = Ok bloom.
Proof.
  intros Hwf Hm Hsat.
  assert (Hall : forallb (bit_at (a bloom)) (bloom_indices bloom x) = true).
  { apply forallb_forall. intros i Hi.
    apply (proj1 (saturated_spec bloom) Hsat).
    apply (bloom_indices_range bloom x i); [lia|exact Hi]. }
  split.
  - rewrite bloom_check_spec, Hall by assumption. reflexivity.
  - apply bloom_add_absorb; assumption.
Qed.

Lemma saturated_answers_true_witness :
  bloom_wf {| m := 11; k := 2; a := [255; 7]; hash := [djb2; sdbm] |} = true
  /\ 1 <= 11
  /\ saturated {| m := 11; k := 2; a := [255; 7]; hash := [djb2; sdbm] |} = true
  /\ bloom_check {| m := 11; k := 2; a := [255; 7]; hash := [djb2; sdbm] |}
       "never added" = Ok true.
Proof.
  split; [reflexivity|]. split; [lia|]. split; [reflexivity|].
  apply (saturated_answers_true
           {| m := 11; k := 2; a := [255; 7]; hash := [djb2; sdbm] |}
           "never added"); [reflexivity|simpl; lia|reflexivity].
Defined.

End Answers.

(** ** Allocation, failure paths and [bloom_del] *)

Section Allocation.

Implicit Types (heap : allocator) (size num_hashes : Z) (bloom : bloom_t)
  (live : gset nat) (blk : nat) (ptrs : bloom_ptrs).

(** Membership goals over sets of blocks. *)
Local Ltac blocks :=
  try (apply set_eq; intros ?); set_unfold; intuition (subst; auto; congruence).

Lemma malloc_ok_fresh live :
  malloc true live = (Some (fresh live), {[fresh live]} ∪ live)
  /\ fresh live ∉ live.
Proof. split; [reflexivity|apply is_fresh]. Qed.

Lemma free_live blk live : blk ∈ live -> free blk live = Ok (live ∖ {[blk]}).
Proof. intros Hin. unfold free. destruct (decide (blk ∈ live)); [reflexivity|contradiction]. Qed.

Lemma free_Ok blk live live' :
  free blk live = Ok live' -> blk ∈ live /\ live' = live ∖ {[blk]}.
Proof.
  unfold free. destruct (decide (blk ∈ live)); [|discriminate].
  intros Heq. injection Heq as <-. split; [assumption|reflexivity].
Qed.

Lemma free_fresh_back blk live :
  blk ∉ live -> free blk ({[blk]} ∪ live) = Ok live.
Proof.
  intros Hnot. rewrite free_live by blocks. f_equal.
  blocks.
Qed.

(** X13 -- A failed construction leaks nothing: whenever [bloom_new]
    returns [NULL], the blocks it had already obtained have been freed
    again, each exactly once, and the set of live blocks is what it was
    before the call. *)
Theorem bloom_new_failure_no_leak heap size num_hashes
    (hashes : list hashfp_t) live :
  bloom_new heap size num_hashes hashes = Ok None ->
  bloom_new_alloc heap size num_hashes hashes live = Ok (None, live).
Proof.
  unfold bloom_new, bloom_new_alloc, malloc. intros Hnull.
  destruct (malloc_bloom heap); [|reflexivity].
  destruct (calloc_a heap).
  - destruct (malloc_hash heap).
    + cbn [negb] in Hnull.
      destruct (bloom_new_loop _ _ _ _ _); discriminate.
    + pose proof (is_fresh live) as Hb.
      pose proof (is_fresh ({[fresh live]} ∪ live)) as Ha.
      rewrite free_fresh_back by exact Ha. cbn [bind].
      rewrite free_fresh_back by exact Hb. reflexivity.
  - pose proof (is_fresh live) as Hb.
    rewrite free_fresh_back by exact Hb. reflexivity.
Qed.

Lemma bloom_new_failure_no_leak_witness :
  bloom_new {| malloc_bloom := true; calloc_a := true; malloc_hash := false |}
    16 2 [djb2; sdbm] = Ok None
  /\ bloom_new_alloc
       {| malloc_bloom := true; calloc_a := true; malloc_hash := false |}
       16 2 [djb2; sdbm] {[7%nat]}
     = Ok (None, {[7%nat]}).
Proof.
  split; [reflexivity|].
  apply (bloom_new_failure_no_leak
           {| malloc_bloom := true; calloc_a := true; malloc_hash := false |}
           16 2 [djb2; sdbm] {[7%nat]}).
  reflexivity.
Defined.

(** X14 -- Construction and destruction undo each other: a successful
    [bloom_new] returns the filter of the model above with three
    pointers to distinct blocks that were not live before, and
    [bloom_del] on them is defined and leaves exactly the blocks that
    were live before the construction. *)
Theorem bloom_new_del_roundtrip heap size num_hashes (hashes : list hashfp_t)
    live ptrs bloom live' :
  bloom_new_alloc heap size num_hashes hashes live
  = Ok (Some (ptrs, bloom), live') ->
  bloom_new heap size num_hashes hashes = Ok (Some bloom)
  /\ (p_bloom ptrs ∉ live) /\ (p_a ptrs ∉ live) /\ (p_hash ptrs ∉ live)
  /\ p_bloom ptrs <> p_a ptrs /\ p_bloom ptrs <> p_hash ptrs
  /\ p_a ptrs <> p_hash ptrs
  /\ live' = {[p_bloom ptrs; p_a ptrs; p_hash ptrs]} ∪ live
  /\ bloom_del ptrs live' = Ok live.
Proof.
  unfold bloom_new_alloc, bloom_new, malloc. intros Halloc.
  destruct (malloc_bloom heap); [|discriminate].
  destruct (calloc_a heap);
    [|destruct (free _ _); discriminate].
  destruct (malloc_hash heap).
  2:{ destruct (free _ _) as [l4|]; [|discriminate]. cbn [bind] in Halloc.
      destruct (free _ l4); discriminate. }
  cbn [negb].
  destruct (bloom_new_loop _ _ _ _ _) as [tbl|]; [|discriminate].
  cbn [bind] in Halloc. injection Halloc as <- <- <-. cbn [bind].
  set (pb := fresh live).
  set (pa := fresh ({[pb]} ∪ live)).
  set (ph := fresh ({[pa]} ∪ ({[pb]} ∪ live))).
  pose proof (is_fresh live) as Hb. fold pb in Hb.
  pose proof (is_fresh ({[pb]} ∪ live)) as Ha. fold pa in Ha.
  pose proof (is_fresh ({[pa]} ∪ ({[pb]} ∪ live))) as Hh. fold ph in Hh.
  simpl.
  split; [reflexivity|].
  split; [exact Hb|]. split; [blocks|]. split; [blocks|].
  split; [blocks|]. split; [blocks|]. split; [blocks|].
  split; [blocks|].
  unfold bloom_del. simpl.
  rewrite (free_live pa) by blocks. cbn [bind].
  rewrite (free_live ph) by blocks. cbn [bind].
  rewrite (free_live pb) by blocks. f_equal. blocks.
Qed.

Lemma bloom_new_del_roundtrip_witness :
  exists ptrs bloom live',
    bloom_new_alloc heap_ok 16 2 [djb2; sdbm] {[7%nat]}
    = Ok (Some (ptrs, bloom), live')
    /\ bloom_new heap_ok 16 2 [djb2; sdbm] = Ok (Some bloom)
    /\ bloom_del ptrs live' = Ok {[7%nat]}.
Proof.
  eexists _, _, _.
  assert (Halloc : bloom_new_alloc heap_ok 16 2 [djb2; sdbm] {[7%nat]}
                   = Ok (Some (_, _), _)) by reflexivity.
  split; [exact Halloc|].
  destruct (bloom_new_del_roundtrip heap_ok 16 2 [djb2; sdbm] {[7%nat]}
              _ _ _ Halloc)
    as (Hnew & _ & _ & _ & _ & _ & _ & _ & Hdel).
  split; assumption.
Defined.

(** X15 -- [bloom_del] is defined only on three distinct live blocks, it
    frees exactly those three, and a second [bloom_del] of the same
    filter is undefined (its first [free] meets a block that is no
    longer live). *)
Theorem bloom_del_twice ptrs live live' :
  bloom_del ptrs live = Ok live' ->
  p_a ptrs ∈ live /\ p_hash ptrs ∈ live /\ p_bloom ptrs ∈ live
  /\ p_a ptrs <> p_hash ptrs /\ p_a ptrs <> p_bloom ptrs
  /\ p_hash ptrs <> p_bloom ptrs
  /\ live' = live ∖ {[p_a ptrs; p_hash ptrs; p_bloom ptrs]}
  /\ bloom_del ptrs live' = Undefined.
Proof.
  unfold bloom_del. intros Hdel.
  destruct (free (p_a ptrs) live) as [l1|] eqn:H1; [|discriminate].
  cbn [bind] in Hdel.
  destruct (free (p_hash ptrs) l1) as [l2|] eqn:H2; [|discriminate].
  cbn [bind] in Hdel.
  apply free_Ok in H1, H2, Hdel.
  destruct H1 as [Ha ->], H2 as [Hh ->], Hdel as [Hb ->].
  split; [exact Ha|]. split; [blocks|]. split; [blocks|].
  split; [blocks|]. split; [blocks|]. split; [blocks|].
  split; [blocks|].
  destruct (free (p_a ptrs) _) as [l1|] eqn:Hf; [|reflexivity].
  apply free_Ok in Hf. destruct Hf as [Hin _]. exfalso. revert Hin. blocks.
Qed.

Lemma bloom_del_twice_witness :
  bloom_del {| p_bloom := 1; p_a := 2; p_hash := 3 |} {[1%nat; 2%nat; 3%nat; 7%nat]}
  = Ok ({[1%nat; 2%nat; 3%nat; 7%nat]} ∖ {[2%nat]} ∖ {[3%nat]} ∖ {[1%nat]})
  /\ bloom_del {| p_bloom := 1; p_a := 2; p_hash := 3 |}
       ({[1%nat; 2%nat; 3%nat; 7%nat]} ∖ {[2%nat]} ∖ {[3%nat]} ∖ {[1%nat]})
     = Undefined.
Proof.
  assert (Hdel : bloom_del {| p_bloom := 1; p_a := 2; p_hash := 3 |}
                   {[1%nat; 2%nat; 3%nat; 7%nat]}
                 = Ok ({[1%nat; 2%nat; 3%nat; 7%nat]} ∖ {[2%nat]} ∖ {[3%nat]}
                         ∖ {[1%nat]})) by reflexivity.
  split; [exact Hdel|].
  apply (bloom_del_twice _ _ _ Hdel).
Defined.

End Allocation.

(** ** The order of the hash functions *)

Section TableOrder.

Implicit Types (bloom : bloom_t) (s : string) (i : Z).

Lemma forallb_perm (f : Z -> bool) (l1 l2 : list Z) :
  Permutation l1 l2 -> forallb f l1 = forallb f l2.
Proof.
  intros Hperm. apply eq_true_iff_eq. rewrite !forallb_forall.
  split; intros Hall y Hy; apply Hall.
  - apply (Permutation_in y (Permutation_sym Hperm) Hy).
  - apply (Permutation_in y Hperm Hy).
Qed.

Lemma existsb_perm (f : Z -> bool) (l1 l2 : list Z) :
  Permutation l1 l2 -> existsb f l1 = existsb f l2.
Proof.
  intros Hperm. apply eq_true_iff_eq. rewrite !existsb_exists.
  split; intros (y & Hy & Hf); exists y; split; try assumption.
  - apply (Permutation_in y Hperm Hy).
  - apply (Permutation_in y (Permutation_sym Hperm) Hy).
Qed.

(** X16 -- The order of the table does not show in the results: two
    filters with the same [m] and the same array whose tables hold the
    same hash functions in a different order give the same answer to
    [bloom_check] and have the same array after [bloom_add] of a key. *)
Theorem table_order_irrelevant bloom1 bloom2 s :
  bloom_wf bloom1 = true -> bloom_wf bloom2 = true -> 1 <= m bloom1 ->
  m bloom2 = m bloom1 -> a bloom2 = a bloom1 ->
  Permutation (hash bloom1) (hash bloom2) ->
  bloom_check bloom1 s = bloom_check bloom2 s
  /\ exists b1 b2,
       bloom_add bloom1 s = Ok b1 /\ bloom_add bloom2 s = Ok b2
       /\ a b1 = a b2.
Proof.
  intros Hwf1 Hwf2 Hm Hm2 Ha Hperm.
  assert (Hidx : Permutation (bloom_indices bloom1 s) (bloom_indices bloom2 s)).
  { unfold bloom_indices, bit_index. rewrite Hm2.
    apply Permutation_map. exact Hperm. }
  split.
  - rewrite !bloom_check_spec by (assumption || lia). rewrite Ha. f_equal.
    apply forallb_perm. exact Hidx.
  - destruct (bloom_add_spec bloom1 s Hwf1 Hm)
      as (b1 & Hadd1 & _ & _ & _ & Hlen1 & Hwf1' & Hbits1).
    destruct (bloom_add_spec bloom2 s Hwf2 ltac:(lia))
      as (b2 & Hadd2 & _ & _ & _ & Hlen2 & Hwf2' & Hbits2).
    exists b1, b2. split; [exact Hadd1|]. split; [exact Hadd2|].
    destruct (bloom_wf_elim b1 Hwf1') as (_ & Huc1 & _).
    destruct (bloom_wf_elim b2 Hwf2') as (_ & Huc2 & _).
    apply array_ext; try assumption; [congruence|].
    intros i Hi. rewrite Hbits1, Hbits2, Ha by assumption. f_equal.
    apply existsb_perm. exact Hidx.
Qed.

Lemma table_order_irrelevant_witness :
  bloom_check {| m := 16; k := 2; a := [0; 4]; hash := [djb2; sdbm] |} "apple"
  = bloom_check {| m := 16; k := 2; a := [0; 4]; hash := [sdbm; djb2] |} "apple"
  /\ exists b1 b2,
       bloom_add {| m := 16; k := 2; a := [0; 4]; hash := [djb2; sdbm] |} "apple"
       = Ok b1
       /\ bloom_add {| m := 16; k := 2; a := [0; 4]; hash := [sdbm; djb2] |} "apple"
          = Ok b2
       /\ a b1 = a b2.
Proof.
  apply (table_order_irrelevant
           {| m := 16; k := 2; a := [0; 4]; hash := [djb2; sdbm] |}
           {| m := 16; k := 2; a := [0; 4]; hash := [sdbm; djb2] |} "apple");
    [reflexivity|reflexivity|simpl; lia|reflexivity|reflexivity|].
  simpl. apply perm_swap.
Defined.

End TableOrder.
